(** * gcs-browser-upload: the streaming upload session (src/UploadStream.js)

    A shallow embedding of the [Upload] class and of the two module-level
    helpers [checkResponseStatus] and [safePut], followed by the properties
    of the session that its specification states.

    Conventions of the embedding.
    - JavaScript numbers that hold byte counts, chunk indices, HTTP statuses
      and delays are integers of [Z]; every quantity the file computes stays
      in the range where IEEE doubles are exact on integers.
    - An object used as a record ([opts], a response, a progress report) is a
      [Record]; an object used as a dictionary (response headers, the
      persisted checksums) is a [gmap].
    - Mutation of [this] and of the outside world is explicit state passing
      in the monad [M]; a [throw] is the [Throw] result and keeps the state
      reached so far, as in JavaScript.
    - The calls the session makes to its collaborators (the checksum
      utility, the transport, the persistence layer, the caller's callbacks)
      are appended to a trace, so that their order can be stated.  The
      transport may answer, reject or throw in any way; the other
      collaborators return normally.
    - An [async] function is cut at the one [await] where the session itself
      registers a continuation, the pause gate: a call that waits there is a
      promise in the world, released by [unpause] and continued by the event
      loop.  An exchange with the transport, and the wait between two
      attempts, run without interleaving.
    - [debug] only prints and is left out. *)

From Stdlib Require Import ZArith Lia String Ascii List Strings.Byte.
From stdpp Require Import base option list gmap strings pretty.

Local Open Scope string_scope.
Local Open Scope Z_scope.

(** ** Data *)

(** [const MIN_CHUNK_SIZE = 262144] *)
Definition MIN_CHUNK_SIZE : Z := 262144.

(** The persistence handle of the configuration: [window.localStorage]
    unless the caller injects another one. *)
Inductive storage_ref : Type :=
| LocalStorage
| InjectedStorage (handle : nat).

(** The constructor's [args] object.  [None] is a key that is absent (or
    [null]); the two callbacks are represented by the trace.  The spread
    [...args] copies every key of [args], also keys the constructor has no
    default for; [backoffDelayMillis] is the one such key that the
    configuration surface of the specification names. *)
Record Args : Type := mkArgs {
  arg_chunkSize : option Z;
  arg_storage : option storage_ref;
  arg_contentType : option string;
  arg_id : option string;
  arg_url : option string;
  arg_backoffMillis : option Z;
  arg_backoffRetryLimit : option Z;
  arg_backoffDelayMillis : option Z
}.

(** The object [opts] after the spread.  [id] and [url] are [None] while
    they hold [null]; [backoffDelayMillis] is [None] while it is
    [undefined]. *)
Record Opts : Type := mkOpts {
  chunkSize : Z;
  storage : storage_ref;
  contentType : string;
  id : option string;
  url : option string;
  backoffMillis : Z;
  backoffRetryLimit : Z;
  backoffDelayMillis : option Z
}.

(** What the transport answers: [{status, headers, data}]. *)
Record response : Type := mkResponse {
  status : Z;
  headers : gmap string string;
  data : string
}.

(** The error catalogue of [./errors], with the two kinds of exception that
    do not belong to it: an [Error] thrown by the transport and a
    [TypeError] of the runtime. *)
Inductive error : Type :=
| FileAlreadyUploadedError (id : option string) (url : option string)
| UrlNotFoundError (url : option string)
| UploadFailedError (status : Z)
| UploadUnableToRecoverError
| UnknownResponseError (res : response)
| MissingOptionsError (message : string)
| UploadIncompleteError
| InvalidChunkSizeError (size : Z)
| TransportError (message : string)
| TypeError (message : string).

(** The outcome of a call that may throw. *)
Inductive result (A : Type) : Type :=
| Ok (a : A)
| Throw (e : error).
Arguments Ok {A} a.
Arguments Throw {A} e.

(** A request handed to [put(url, body, {headers, onUploadProgress})]; the
    body is [None] for [null]. *)
Record request : Type := mkRequest {
  req_url : option string;
  req_body : option (list byte);
  req_headers : list (string * string)
}.

(** How the promise returned by [put] settles. *)
Inductive put_outcome : Type :=
| Resolves (res : response)
| RejectsWithError (message : string)
| RejectsWithValue (res : response).

(** One exchange with the transport: the [loaded] counts it reports to
    [onUploadProgress] while sending, then the way it settles. *)
Record exchange : Type := mkExchange {
  progress : list Z;
  outcome : put_outcome
}.

(** The argument of [onProgress] and of [onChunkUpload]; the latter has no
    [totalBytes] key. *)
Record ChunkProgress : Type := mkChunkProgress {
  totalBytes : option Z;
  uploadedBytes : Z;
  chunkIndex : Z;
  chunkLength : Z
}.

(** The options object handed to [retry]. *)
Record RetryOptions : Type := mkRetryOptions {
  retries : Z;
  minTimeout : Z
}.

(** The result of [Math.floor(bytesReceived / opts.chunkSize)]: dividing a
    positive count by zero gives [Infinity]. *)
Inductive jsnum : Type :=
| Num (n : Z)
| Infinity.

(** Calls that leave the session, in the order they are made. *)
Inductive event : Type :=
| EGetChecksum (chunk : list byte)
| EPut (req : request)
| EOnProgress (p : ChunkProgress)
| EBackoff (minTimeout : Z)
| EAddChecksum (index : Z) (checksum : string)
| EOnChunkUpload (p : ChunkProgress)
| EReset
| EResolve (waiter : nat).

Global Instance byte_eq_dec : EqDecision byte := Byte.byte_eq_dec.
Global Instance storage_ref_eq_dec : EqDecision storage_ref.
Proof. solve_decision. Defined.
Global Instance response_eq_dec : EqDecision response.
Proof. solve_decision. Defined.
Global Instance error_eq_dec : EqDecision error.
Proof. solve_decision. Defined.
Global Instance request_eq_dec : EqDecision request.
Proof. solve_decision. Defined.
Global Instance ChunkProgress_eq_dec : EqDecision ChunkProgress.
Proof. solve_decision. Defined.
Global Instance event_eq_dec : EqDecision event.
Proof. solve_decision. Defined.

(** ** The response classifier *)

(** [Array.prototype.indexOf]: the first position holding [x], or [-1]. *)
Fixpoint indexOf_from (l : list Z) (x : Z) (i : Z) : Z :=
  match l with
  | [] => -1
  | y :: l' => if y =? x then i else indexOf_from l' x (i + 1)
  end.

Definition indexOf (l : list Z) (x : Z) : Z := indexOf_from l x 0.

(** [function checkResponseStatus (res, opts, allowed = [])] *)
Definition checkResponseStatus (res : response) (o : Opts) (allowed : list Z)
  : result bool :=
  let status := status res in
  if indexOf allowed status >? -1 then Ok true
  else if status =? 308 then Throw UploadIncompleteError
  else if (status =? 201) || (status =? 200)
    then Throw (FileAlreadyUploadedError (id o) (url o))
  else if status =? 404 then Throw (UrlNotFoundError (url o))
  else if (status =? 500) || (status =? 502) || (status =? 503) || (status =? 504)
    then Throw (UploadFailedError status)
  else Throw (UnknownResponseError res).

(** ** The collaborators *)

(** The checksum utility ([getChecksum] of ./FileProcessor over a SparkMD5
    accumulator) is taken as a parameter with the contract the interface
    section of the specification gives it: from the accumulator and the
    bytes of a chunk it yields the checksum string of the chunk and leaves
    the accumulator updated. *)
Class ChecksumUtility : Type := {
  Spark : Type;
  spark_new : Spark;
  getChecksum : Spark → list byte → string * Spark
}.

(** Modelled from the spec: the class [FileMeta] of ./FileMeta, which is not
    among the sources.  The object keeps what the constructor hands it; the
    store behind it maps, for each upload id, a chunk index to the checksum
    of that chunk. *)
Record FileMeta : Type := mkFileMeta {
  meta_id : option string;
  meta_fileSize : Z;
  meta_chunkSize : Z;
  meta_storage : storage_ref
}.

(** Modelled from the spec: the persistence contract [put(id, index,
    checksum)] behind [meta.addChecksum(index, checksum)]. *)
Definition FileMeta_addChecksum (m : FileMeta) (index : Z) (checksum : string)
    (store : gmap (option string) (gmap Z string))
  : gmap (option string) (gmap Z string) :=
  <[meta_id m := <[index := checksum]> (default ∅ (store !! meta_id m))]> store.

(** Modelled from the spec: the persistence contract [clear(id)] behind
    [meta.reset()]. *)
Definition FileMeta_reset (m : FileMeta)
    (store : gmap (option string) (gmap Z string))
  : gmap (option string) (gmap Z string) :=
  delete (meta_id m) store.

(** ** The Range header *)

(** [\d] *)
Definition is_digit (c : ascii) : bool :=
  let n := nat_of_ascii c in (48 <=? n)%nat && (n <=? 57)%nat.

(** The lazy group [(\d+?)] followed by the rest [k] of the pattern: one
    digit is taken, the rest of the pattern is tried, and only when that
    fails is one more digit taken.  [taken] holds the digits already in the
    group. *)
Fixpoint lazy_digits {R} (taken : string) (s : string)
    (k : string → string → option R) : option R :=
  match s with
  | String c s' =>
      if is_digit c then
        let g := taken +:+ String c "" in
        match k g s' with
        | Some r => Some r
        | None => lazy_digits g s' k
        end
      else None
  | "" => None
  end.

(** [/(\d+?)-(\d+?)$/] tried at the first character of [s]; the two groups
    of a match. *)
Definition match_here (s : string) : option (string * string) :=
  lazy_digits "" s (λ g1 rest,
    match rest with
    | String "-" rest' =>
        lazy_digits "" rest' (λ g2 rest'',
          match rest'' with
          | "" => Some (g1, g2)
          | _ => None
          end)
    | _ => None
    end).

(** [header.match(/(\d+?)-(\d+?)$/)]: the match that starts leftmost, or
    [None] for [null]. *)
Fixpoint regex_match (s : string) : option (string * string) :=
  match match_here s with
  | Some g => Some g
  | None =>
      match s with
      | String _ s' => regex_match s'
      | "" => None
      end
  end.

(** The value of a decimal digit. *)
Definition digit_value (c : ascii) : Z := Z.of_nat (nat_of_ascii c) - 48.

Fixpoint parseInt_from (acc : Z) (s : string) : Z :=
  match s with
  | String c s' =>
      if is_digit c then parseInt_from (10 * acc + digit_value c) s' else acc
  | "" => acc
  end.

(** [parseInt] on a string that starts with a digit (the only strings it
    receives here are the second group of a match): the value of the
    leading run of digits, in base ten. *)
Definition parseInt (s : string) : Z := parseInt_from 0 s.

(** [Math.floor(a / b)] for a positive [a]. *)
Definition floor_div (a b : Z) : jsnum :=
  if b =? 0 then Infinity else Num (a / b).

Section Session.
Context {CU : ChecksumUtility}.

(** ** The session object and the world around it *)

(** The local variables of a call of [uploadChunk] that are live across its
    suspension at the pause gate. *)
Record frame : Type := mkFrame {
  f_index : Z;
  f_chunk : list byte;
  f_opts : Opts;
  f_meta : FileMeta;
  f_start : Z;
  f_end : Z
}.

(** The promise returned by a call of [uploadChunk]. *)
Inductive promise : Type :=
| Gated (f : frame)
| Released (f : frame)
| Settled (r : result unit).

(** The fields of [this]; a resolver in [unpauseHandlers] is named by the
    promise it belongs to. *)
Record Upload : Type := mkUpload {
  paused : bool;
  unpauseHandlers : list nat;
  spark : Spark;
  opts : Opts;
  meta : FileMeta
}.

(** What is outside the object: the transport (how its [n]-th call answers
    a request) and the number of calls made, the content of the checksum
    store, the trace, and the promises handed out so far. *)
Record World : Type := mkWorld {
  transport : nat → request → exchange;
  calls : nat;
  checksums : gmap (option string) (gmap Z string);
  trace : list event;
  promises : list promise
}.

Record State : Type := mkState {
  this : Upload;
  world : World
}.

Definition set_paused (b : bool) (u : Upload) : Upload :=
  mkUpload b (unpauseHandlers u) (spark u) (opts u) (meta u).

Definition set_unpauseHandlers (l : list nat) (u : Upload) : Upload :=
  mkUpload (paused u) l (spark u) (opts u) (meta u).

Definition set_spark (sp : Spark) (u : Upload) : Upload :=
  mkUpload (paused u) (unpauseHandlers u) sp (opts u) (meta u).

Definition set_calls (n : nat) (w : World) : World :=
  mkWorld (transport w) n (checksums w) (trace w) (promises w).

Definition set_checksums (c : gmap (option string) (gmap Z string)) (w : World)
  : World :=
  mkWorld (transport w) (calls w) c (trace w) (promises w).

Definition set_trace (t : list event) (w : World) : World :=
  mkWorld (transport w) (calls w) (checksums w) t (promises w).

Definition set_promises (ps : list promise) (w : World) : World :=
  mkWorld (transport w) (calls w) (checksums w) (trace w) ps.

Definition on_this (f : Upload → Upload) (s : State) : State :=
  mkState (f (this s)) (world s).

Definition on_world (f : World → World) (s : State) : State :=
  mkState (this s) (f (world s)).

(** ** The monad of synchronous code *)

Definition M (A : Type) : Type := State → result A * State.

Definition ret {A} (a : A) : M A := λ s, (Ok a, s).

Definition throw {A} (e : error) : M A := λ s, (Throw e, s).

Definition bind {A B} (m : M A) (k : A → M B) : M B :=
  λ s, match m s with
       | (Ok a, s') => k a s'
       | (Throw e, s') => (Throw e, s')
       end.

Definition try_catch {A} (body : M A) (handler : error → M A) : M A :=
  λ s, match body s with
       | (Ok a, s') => (Ok a, s')
       | (Throw e, s') => handler e s'
       end.

Definition update (f : State → State) : M unit := λ s, (Ok tt, f s).

Definition get : M State := λ s, (Ok s, s).

(** A synchronous call that returns or throws without touching the state. *)
Definition of_result {A} (r : result A) : M A := λ s, (r, s).

Definition emit (e : event) : M unit :=
  update (on_world (λ w, set_trace (trace w ++ [e]) w)).

#[local] Instance M_bind : MBind M := λ A B k m, bind m k.

(** [for (x of l) f(x)] *)
Fixpoint for_each {A} (l : list A) (f : A → M unit) : M unit :=
  match l with
  | [] => ret tt
  | x :: l' => f x;; for_each l' f
  end.

(** ** The constructor *)

(** Truthiness of a string-or-null: [null] and the empty string are falsy. *)
Definition truthy (v : option string) : bool :=
  match v with
  | None => false
  | Some s => negb (String.eqb s "")
  end.

(** [{ chunkSize: MIN_CHUNK_SIZE, ..., backoffRetryLimit: 5, ...args }] *)
Definition spread (args : Args) : Opts :=
  {| chunkSize := default MIN_CHUNK_SIZE (arg_chunkSize args);
     storage := default LocalStorage (arg_storage args);
     contentType := default "text/plain" (arg_contentType args);
     id := arg_id args;
     url := arg_url args;
     backoffMillis := default 1000 (arg_backoffMillis args);
     backoffRetryLimit := default 5 (arg_backoffRetryLimit args);
     backoffDelayMillis := arg_backoffDelayMillis args |}.

(** [constructor (args, allowSmallChunks)]; [%] is the remainder that
    truncates towards zero. *)
Definition Upload_constructor (args : Args) (allowSmallChunks : bool)
  : result Upload :=
  let o := spread args in
  if (negb (Z.rem (chunkSize o) MIN_CHUNK_SIZE =? 0) || (chunkSize o =? 0))
     && negb allowSmallChunks
  then Throw (InvalidChunkSizeError (chunkSize o))
  else if negb (truthy (id o))
  then Throw (MissingOptionsError "The 'id' option is required")
  else if negb (truthy (url o))
  then Throw (MissingOptionsError "The 'url' option is required")
  else Ok {| paused := false;
             unpauseHandlers := [];
             spark := spark_new;
             opts := o;
             meta := mkFileMeta (id o) 0 (chunkSize o) (storage o) |}.

(** ** The transport and the retry policy *)

(** [put(url, body, {headers, onUploadProgress})] of axios: the request
    leaves, the transport reports progress to the callback when there is
    one, and the promise settles. *)
Definition put (u : option string) (body : option (list byte))
    (hs : list (string * string)) (onUploadProgress : option (Z → M unit))
  : M put_outcome :=
  let req := mkRequest u body hs in
  emit (EPut req);;
  s ← get;
  let w := world s in
  let x := transport w (calls w) req in
  update (on_world (set_calls (S (calls w))));;
  match onUploadProgress with
  | Some cb => for_each (progress x) cb
  | None => ret tt
  end;;
  ret (outcome x).

(** [async function safePut ()]: a rejection that is an [Error] is thrown
    again, any other rejection value is returned as the response. *)
Definition safePut (u : option string) (body : option (list byte))
    (hs : list (string * string)) (onUploadProgress : option (Z → M unit))
  : M response :=
  o ← put u body hs onUploadProgress;
  match o with
  | Resolves res => ret res
  | RejectsWithError message => throw (TransportError message)
  | RejectsWithValue e => ret e
  end.

(** Modelled from the spec: the retry policy ([retry] of the async-retry
    package, not among the sources).  The attempt runs; when it fails and
    retries are left, the policy waits with base delay [minTimeout] and
    runs it again with the next attempt number; when none is left, the
    failure of the last attempt is the failure of the whole.  The [bail]
    argument of the attempt is never used by this file and is left out. *)
Fixpoint retry_from {A} (fn : Z → M A) (left : nat) (num : Z) (delay : Z)
  : M A :=
  λ s, match fn num s with
       | (Ok a, s') => (Ok a, s')
       | (Throw e, s') =>
           match left with
           | O => (Throw e, s')
           | S left' =>
               (emit (EBackoff delay);; retry_from fn left' (num + 1) delay) s'
           end
       end.

(** Modelled from the spec: [retry(fn, {retries, minTimeout})], with
    [retries] retries after the first attempt; attempts are numbered from
    1. *)
Definition retry {A} (fn : Z → M A) (o : RetryOptions) : M A :=
  retry_from fn (Z.to_nat (retries o)) 1 (minTimeout o).

(** ** uploadChunk *)

(** [chunk.byteLength] *)
Definition byteLength (chunk : list byte) : Z := Z.of_nat (length chunk).

(** Lines 65-67: the locals computed before the pause gate. *)
Definition uploadChunk_locals (index : Z) (chunk : list byte) (u : Upload)
  : frame :=
  let o := opts u in
  {| f_index := index;
     f_chunk := chunk;
     f_opts := o;
     f_meta := meta u;
     f_start := index * chunkSize o;
     f_end := index * chunkSize o + byteLength chunk - 1 |}.

(** The [onUploadProgress] handler of a chunk request. *)
Definition onUploadProgress_handler (f : frame) (loaded : Z) : M unit :=
  emit (EOnProgress
          {| totalBytes := Some (f_start f + byteLength (f_chunk f));
             uploadedBytes := f_start f + loaded;
             chunkIndex := f_index f;
             chunkLength := byteLength (f_chunk f) |}).

(** The options handed to [retry] at line 103. *)
Definition retry_options (o : Opts) : RetryOptions :=
  {| retries := backoffRetryLimit o; minTimeout := backoffMillis o |}.

(** Lines 91-102: one attempt. *)
Definition uploadChunk_attempt (f : frame) (hs : list (string * string))
    (num : Z) : M bool :=
  res ← safePut (url (f_opts f)) (Some (f_chunk f)) hs
        (Some (onUploadProgress_handler f));
  of_result (checkResponseStatus res (f_opts f) [200; 201; 308]).

(** Lines 73-115: from the pause gate to the end. *)
Definition uploadChunk_body (f : frame) : M unit :=
  s ← get;
  let '(checksum, sp') := getChecksum (spark (this s)) (f_chunk f) in
  emit (EGetChecksum (f_chunk f));;
  update (on_this (set_spark sp'));;
  let hs := [("Content-Type", contentType (f_opts f));
             ("Content-Range",
              "bytes " +:+ pretty (f_start f) +:+ "-" +:+ pretty (f_end f)
                +:+ "/*")] in
  try_catch
    (retry (uploadChunk_attempt f hs) (retry_options (f_opts f));; ret tt)
    (λ err, throw UploadUnableToRecoverError);;
  emit (EAddChecksum (f_index f) checksum);;
  update (on_world (λ w,
    set_checksums
      (FileMeta_addChecksum (f_meta f) (f_index f) checksum (checksums w)) w));;
  emit (EOnChunkUpload
          {| totalBytes := None;
             uploadedBytes := f_end f + 1;
             chunkIndex := f_index f;
             chunkLength := byteLength (f_chunk f) |}).

(** [waitForUnpause ()]: the executor of the new promise pushes its
    resolver. *)
Definition waitForUnpause (p : nat) (u : Upload) : Upload :=
  set_unpauseHandlers (unpauseHandlers u ++ [p]) u.

(** [async uploadChunk (index, chunk, backoff = 1)]: the call returns its
    promise.  When the session is paused the call stops at line 70 with
    its resolver registered; otherwise it runs on to the end.  The third
    parameter is read nowhere and is left out. *)
Definition uploadChunk (index : Z) (chunk : list byte) (s : State)
  : nat * State :=
  let f := uploadChunk_locals index chunk (this s) in
  let p := length (promises (world s)) in
  if paused (this s) then
    (p, on_world (λ w, set_promises (promises w ++ [Gated f]) w)
          (on_this (waitForUnpause p) s))
  else
    let '(r, s') := uploadChunk_body f s in
    (p, on_world (λ w, set_promises (promises w ++ [Settled r]) w) s').

(** The continuation of a call whose resolver has fired: it resumes after
    line 71 and runs to the end. *)
Definition resume (p : nat) (s : State) : State :=
  match promises (world s) !! p with
  | Some (Released f) =>
      let '(r, s') := uploadChunk_body f s in
      on_world (λ w, set_promises (<[p := Settled r]> (promises w)) w) s'
  | _ => s
  end.

(** ** getRemoteResumeIndex *)

(** [async getRemoteResumeIndex ()].  Reading [match] of a header that is
    [undefined], or an index of the [null] that a failed match returns, is
    a [TypeError]. *)
Definition getRemoteResumeIndex : M jsnum :=
  s ← get;
  let o := opts (this s) in
  let hs := [("Content-Range", "bytes */*")] in
  res ← safePut (url o) None hs None;
  of_result (checkResponseStatus res o [308]);;
  match headers res !! "range" with
  | None => throw (TypeError "Cannot read properties of undefined")
  | Some header =>
      match regex_match header with
      | None => throw (TypeError "Cannot read properties of null")
      | Some range =>
          let bytesReceived := parseInt (snd range) + 1 in
          ret (floor_div bytesReceived (chunkSize o))
      end
  end.

(** ** pause, unpause and cancel *)

(** [pause ()] *)
Definition pause (s : State) : State := on_this (set_paused true) s.

(** A resolver [fn()] pushed by [waitForUnpause]: the promise it belongs
    to stops waiting; calling it on a promise that has left already changes nothing. *)
Definition resolve (p : nat) : M unit :=
  emit (EResolve p);;
  update (on_world (λ w,
    match promises w !! p with
    | Some (Gated f) => set_promises (<[p := Released f]> (promises w)) w
    | _ => w
    end)).

(** [unpause ()] *)
Definition unpause (s : State) : State :=
  let s1 := on_this (set_paused false) s in
  let s2 := snd (for_each (unpauseHandlers (this s1)) resolve s1) in
  on_this (set_unpauseHandlers []) s2.

(** [cancel ()] *)
Definition cancel (s : State) : State :=
  let s1 := snd (emit EReset s) in
  on_world (λ w,
    set_checksums (FileMeta_reset (meta (this s1)) (checksums w)) w) s1.

(** ** The session as a machine *)

(** What can happen to a session: a call of its interface by the caller,
    or the event loop running the continuation of a released call. *)
Inductive action : Type :=
| APause
| AUnpause
| ACancel
| AUploadChunk (index : Z) (chunk : list byte)
| AGetRemoteResumeIndex
| AResume (p : nat).

Definition exec (a : action) (s : State) : State :=
  match a with
  | APause => pause s
  | AUnpause => unpause s
  | ACancel => cancel s
  | AUploadChunk index chunk => snd (uploadChunk index chunk s)
  | AGetRemoteResumeIndex => snd (getRemoteResumeIndex s)
  | AResume p => resume p s
  end.

Definition run (l : list action) (s : State) : State :=
  fold_left (λ s a, exec a s) l s.

(** A session fresh from its constructor, in a world where nothing has
    happened yet. *)
Definition initial (u : Upload) (net : nat → request → exchange)
    (store : gmap (option string) (gmap Z string)) : State :=
  mkState u (mkWorld net 0%nat store [] []).

End Session.

(** ** Vocabulary of the statements *)

(** The response that [safePut] hands on, when the transport settles with
    one. *)
Definition settles_with (x : exchange) (res : response) : Prop :=
  outcome x = Resolves res ∨ outcome x = RejectsWithValue res.

(** The verdict on one chunk attempt, read off the exchange: a response is
    classified against the allow-list of [uploadChunk], an [Error] of the
    transport is the failure. *)
Definition attempt_verdict (o : Opts) (x : exchange) : result bool :=
  match outcome x with
  | Resolves res | RejectsWithValue res =>
      checkResponseStatus res o [200; 201; 308]
  | RejectsWithError message => Throw (TransportError message)
  end.

(** The attempt fails: the transport throws, or answers with a status
    outside 200, 201 and 308. *)
Definition attempt_fails (x : exchange) : Prop :=
  match outcome x with
  | Resolves res | RejectsWithValue res =>
      status res ≠ 200 ∧ status res ≠ 201 ∧ status res ≠ 308
  | RejectsWithError _ => True
  end.


(** The events of the retried attempts of one chunk: requests, progress
    reports, and waits with base delay [d]. *)
Definition attempt_event (d : Z) (e : event) : Prop :=
  match e with
  | EPut _ | EOnProgress _ => True
  | EBackoff d' => d' = d
  | _ => False
  end.

(** The headers of the request that carries a chunk. *)
Definition chunk_headers (o : Opts) (start end_ : Z) : list (string * string) :=
  [("Content-Type", contentType o);
   ("Content-Range", "bytes " +:+ pretty start +:+ "-" +:+ pretty end_ +:+ "/*")].

(** The request that carries the chunk of a frame. *)
Definition chunk_request (o : Opts) (index : Z) (chunk : list byte) : request :=
  {| req_url := url o;
     req_body := Some chunk;
     req_headers :=
       chunk_headers o (index * chunkSize o)
         (index * chunkSize o + Z.of_nat (length chunk) - 1) |}.

(** The status probe of [getRemoteResumeIndex]. *)
Definition probe_request (o : Opts) : request :=
  {| req_url := url o;
     req_body := None;
     req_headers := [("Content-Range", "bytes */*")] |}.

(** A string of decimal digits. *)
Fixpoint all_digits (s : string) : bool :=
  match s with
  | String c s' => is_digit c && all_digits s'
  | "" => true
  end.

(** The report that the progress handler of a chunk request passes to
    [onProgress] when the transport has sent [loaded] bytes. *)
Definition progress_event (f : frame) (loaded : Z) : event :=
  EOnProgress
    {| totalBytes := Some (f_start f + byteLength (f_chunk f));
       uploadedBytes := f_start f + loaded;
       chunkIndex := f_index f;
       chunkLength := byteLength (f_chunk f) |}.

(** The report passed to [onChunkUpload] when the chunk of a frame is
    through. *)
Definition chunk_upload_event (f : frame) : event :=
  EOnChunkUpload
    {| totalBytes := None;
       uploadedBytes := f_end f + 1;
       chunkIndex := f_index f;
       chunkLength := byteLength (f_chunk f) |}.

(** The promises after the resolvers of the waiters [hs] have been called
    in turn. *)
Definition release (hs : list nat) (ps : list promise) : list promise :=
  fold_left
    (λ ps p, match ps !! p with
             | Some (Gated f) => <[p := Released f]> ps
             | _ => ps
             end)
    hs ps.

Section Vocabulary.
Context {CU : ChecksumUtility}.

(** The state after the events [evs] have been appended to the trace. *)
Definition add_events (evs : list event) (s : State) : State :=
  on_world (λ w, set_trace (trace w ++ evs) w) s.

(** The state after one more exchange with the transport, which appended
    the events [evs]. *)
Definition after_exchange (evs : list event) (s : State) : State :=
  on_world (λ w, set_calls (S (calls w)) w) (add_events evs s).

(** Between [s] and [s'] only attempts on the transport took place: the
    object, the transport, the store and the promises are the same, and the
    trace grew by attempt events. *)
Definition attempts_only (d : Z) (s s' : State) : Prop :=
  this s' = this s
  ∧ transport (world s') = transport (world s)
  ∧ checksums (world s') = checksums (world s)
  ∧ promises (world s') = promises (world s)
  ∧ ∃ evs, trace (world s') = (trace (world s) ++ evs)%list
           ∧ Forall (attempt_event d) evs.

(** The state in which the attempts of a chunk start: the chunk has been
    folded into the accumulator. *)
Definition folded (f : frame) (s : State) : State :=
  on_this (set_spark (snd (getChecksum (spark (this s)) (f_chunk f))))
    (add_events [EGetChecksum (f_chunk f)] s).

(** The state after the checksum of a chunk has been persisted and the
    caller told. *)
Definition recorded (f : frame) (checksum : string) (s : State) : State :=
  add_events [chunk_upload_event f]
    (on_world (λ w,
       set_checksums
         (FileMeta_addChecksum (f_meta f) (f_index f) checksum (checksums w)) w)
       (add_events [EAddChecksum (f_index f) checksum] s)).

(** The waiter list and the promises agree: every resolver is registered
    once, and the registered resolvers are those of the calls that wait to
    be unpaused. *)
Definition gate_ok (s : State) : Prop :=
  NoDup (unpauseHandlers (this s))
  ∧ ∀ p, p ∈ unpauseHandlers (this s)
         ↔ ∃ f, promises (world s) !! p = Some (Gated f).

(** The state after the waiters [hs] have been released. *)
Definition released (hs : list nat) (s : State) : State :=
  on_world (λ w, set_promises (release hs (promises w)) w)
    (add_events (map EResolve hs) s).

End Vocabulary.

(** ** Sample collaborators *)

(** An accumulator that keeps the bytes it was fed and prints their count as
    the checksum. *)
Definition counting_checksum : ChecksumUtility :=
  {| Spark := list byte;
     spark_new := [];
     getChecksum sp chunk :=
       (pretty (length (sp ++ chunk)%list), (sp ++ chunk)%list) |}.

(** A transport that answers every request with the same status and no
    headers. *)
Definition always_status (st : Z) : nat → request → exchange :=
  λ _ _, mkExchange [] (Resolves (mkResponse st ∅ "")).

(** A transport that answers 308 with the given [Range] header. *)
Definition resumable (range : string) : nat → request → exchange :=
  λ _ _, mkExchange [] (Resolves (mkResponse 308 {["range" := range]} "")).

(** The minimal configuration [{id: "x", url: "http://h"}]. *)
Definition minimal_args : Args :=
  mkArgs None None None (Some "x") (Some "http://h") None None None.

(** A configuration that sets [backoffDelayMillis] to 50 and allows one
    retry: [{id: "x", url: "http://h", backoffRetryLimit: 1,
    backoffDelayMillis: 50}]. *)
Definition delay_args : Args :=
  mkArgs None None None (Some "x") (Some "http://h") None (Some 1) (Some 50).

(** The session built from the minimal configuration. *)
Definition minimal_upload : @Upload counting_checksum :=
  {| paused := false;
     unpauseHandlers := [];
     spark := @spark_new counting_checksum;
     opts := spread minimal_args;
     meta := mkFileMeta (Some "x") 0 MIN_CHUNK_SIZE LocalStorage |}.

(** The session built from [delay_args]. *)
Definition delay_upload : @Upload counting_checksum :=
  {| paused := false;
     unpauseHandlers := [];
     spark := @spark_new counting_checksum;
     opts := spread delay_args;
     meta := mkFileMeta (Some "x") 0 MIN_CHUNK_SIZE LocalStorage |}.

(** The minimal session in a fresh world whose transport always answers
    with the status [st]. *)
Definition fresh_state (st : Z) : @State counting_checksum :=
  initial minimal_upload (always_status st) ∅.

(** The request that carries the empty chunk 0 of the minimal session. *)
Definition empty_chunk_request : request :=
  {| req_url := Some "http://h";
     req_body := Some [];
     req_headers := [("Content-Type", "text/plain");
                     ("Content-Range", "bytes 0--1/*")] |}.

(** ** Vocabulary of the further statements *)

(** The exchange as [safePut] hands it on: a rejection with a value that is
    no [Error] counts as the answer. *)
Definition accept_rejected_response (x : exchange) : exchange :=
  {| progress := progress x;
     outcome := match outcome x with
                | RejectsWithValue res => Resolves res
                | o => o
                end |}.

(** A transport that resolves with every response the given one rejects
    with. *)
Definition resolving (net : nat → request → exchange)
  : nat → request → exchange :=
  λ n req, accept_rejected_response (net n req).





(** The paused flag after a list of actions, read off the calls of [pause]
    and [unpause] alone. *)
Definition paused_after (b : bool) (l : list action) : bool :=
  fold_left (λ b a, match a with
                    | APause => true
                    | AUnpause => false
                    | _ => b
                    end) l b.

(** The calls of [uploadChunk] for a list of chunks with their indices. *)
Definition upload_calls (cs : list (Z * list byte)) : list action :=
  map (λ ic, AUploadChunk (fst ic) (snd ic)) cs.

(** A Range header that ends in [<digits>-<digits>]. *)
Definition well_formed_range (header : string) : Prop :=
  ∃ pre d1 d2, header = pre +:+ d1 +:+ "-" +:+ d2
               ∧ all_digits d1 = true ∧ d1 ≠ ""
               ∧ all_digits d2 = true ∧ d2 ≠ "".

Section FurtherVocabulary.
Context {CU : ChecksumUtility}.

Definition set_transport (net : nat → request → exchange) (w : World) : World :=
  mkWorld net (calls w) (checksums w) (trace w) (promises w).

(** Two states that differ at most in how a response reaches [safePut]:
    the transport of the second resolves where that of the first rejects
    with a response. *)
Definition same_but_resolving (s t : State) : Prop :=
  this t = this s
  ∧ calls (world t) = calls (world s)
  ∧ checksums (world t) = checksums (world s)
  ∧ trace (world t) = trace (world s)
  ∧ promises (world t) = promises (world s)
  ∧ transport (world t) = resolving (transport (world s)).

(** The accumulator after the chunks of a list have been folded in, in the
    order of the list. *)
Definition fold_chunks (cs : list (Z * list byte)) (sp : Spark) : Spark :=
  fold_left (λ sp ic, snd (getChecksum sp (snd ic))) cs sp.

(** No call waits while the session is not paused. *)
Definition no_waiter_unless_paused (s : State) : Prop :=
  paused (this s) = false → unpauseHandlers (this s) = [].

End FurtherVocabulary.

(** A configuration with chunk size 0: [{id: "x", url: "http://h",
    chunkSize: 0}]. *)
Definition zero_chunk_args : Args :=
  mkArgs (Some 0) None None (Some "x") (Some "http://h") None None None.

(** The session built from [zero_chunk_args] with small chunks allowed. *)
Definition zero_chunk_upload : @Upload counting_checksum :=
  {| paused := false;
     unpauseHandlers := [];
     spark := @spark_new counting_checksum;
     opts := spread zero_chunk_args;
     meta := mkFileMeta (Some "x") 0 0 LocalStorage |}.

(** A transport that rejects every request with a response of the status
    [st], as axios does for a status outside 2xx. *)
Definition always_rejects_with (st : Z) : nat → request → exchange :=
  λ _ _, mkExchange [] (RejectsWithValue (mkResponse st ∅ "")).

(** A transport whose every request ends in an [Error] with the given
    message. *)
Definition always_throws (message : string) : nat → request → exchange :=
  λ _ _, mkExchange [] (RejectsWithError message).


(** * Properties *)

(** Closes a goal about closed terms by evaluation. *)
Ltac by_evaluation := vm_compute; repeat split; discriminate.

(** ** The response classifier *)

Lemma indexOf_from_found (l : list Z) (x i : Z) :
  0 <= i → (indexOf_from l x i >? -1) = true ↔ x ∈ l.
Proof.
  revert i. induction l as [|y l IH]; intros i Hi; simpl.
  - split; [discriminate | intros H; inversion H].
  - destruct (Z.eqb_spec y x) as [->|Hne].
    + split; [intros _; left | intros _; apply Z.gtb_lt; lia].
    + rewrite IH by lia. split.
      * intros H. now right.
      * intros H. inversion H; subst; [congruence | assumption].
Qed.

Lemma indexOf_found (l : list Z) (x : Z) :
  (indexOf l x >? -1) = true ↔ x ∈ l.
Proof. apply indexOf_from_found. lia. Qed.

Lemma checkResponseStatus_allowed (res : response) (o : Opts) (allowed : list Z) :
  status res ∈ allowed → checkResponseStatus res o allowed = Ok true.
Proof.
  intros H. unfold checkResponseStatus.
  apply indexOf_found in H. now rewrite H.
Qed.

Lemma checkResponseStatus_refused (res : response) (o : Opts) (allowed : list Z) :
  status res ∉ allowed → ∃ e, checkResponseStatus res o allowed = Throw e.
Proof.
  intros H. unfold checkResponseStatus.
  destruct (indexOf allowed (status res) >? -1) eqn:E.
  - apply indexOf_found in E. contradiction.
  - repeat match goal with
           | |- context [if ?b then _ else _] => destruct b
           end; eauto.
Qed.

(** C3. The classifier succeeds exactly when the status is in the
    allow-list.  Outside the allow-list it throws by the fixed table: 308
    gives UploadIncompleteError, 200 and 201 give FileAlreadyUploadedError,
    404 gives UrlNotFoundError, 500, 502, 503 and 504 give
    UploadFailedError of the status, anything else gives
    UnknownResponseError of the response.  Status 200 succeeds against
    [200, 201, 308] and is FileAlreadyUploadedError against the empty
    list. *)
Theorem checkResponseStatus_classifies (res : response) (o : Opts)
    (allowed : list Z) :
  let st := status res in
  let verdict := checkResponseStatus res o allowed in
  (verdict = Ok true ↔ st ∈ allowed) ∧
  ((∃ v, verdict = Ok v) ↔ st ∈ allowed) ∧
  (st ∉ allowed →
     (st = 308 → verdict = Throw UploadIncompleteError) ∧
     (st = 200 ∨ st = 201 →
        verdict = Throw (FileAlreadyUploadedError (id o) (url o))) ∧
     (st = 404 → verdict = Throw (UrlNotFoundError (url o))) ∧
     (st = 500 ∨ st = 502 ∨ st = 503 ∨ st = 504 →
        verdict = Throw (UploadFailedError st)) ∧
     (st ∉ [308; 200; 201; 404; 500; 502; 503; 504] →
        verdict = Throw (UnknownResponseError res))) ∧
  checkResponseStatus (mkResponse 200 ∅ "") o [200; 201; 308] = Ok true ∧
  checkResponseStatus (mkResponse 200 ∅ "") o []
    = Throw (FileAlreadyUploadedError (id o) (url o)).
Proof.
  intros st verdict.
  assert (Hiff : verdict = Ok true ↔ st ∈ allowed).
  { split.
    - intros H. destruct (decide (st ∈ allowed)) as [|Hn]; [assumption|].
      destruct (checkResponseStatus_refused res o allowed Hn) as [e He].
      subst verdict. congruence.
    - apply checkResponseStatus_allowed. }
  split; [exact Hiff|]. split; [|split; [|split; reflexivity]].
  - split.
    + intros [v Hv]. destruct (decide (st ∈ allowed)) as [|Hn]; [assumption|].
      destruct (checkResponseStatus_refused res o allowed Hn) as [e He].
      subst verdict. congruence.
    + intros H. exists true. now apply Hiff.
  - intros Hn. subst verdict. unfold checkResponseStatus. fold st.
    destruct (indexOf allowed st >? -1) eqn:E.
    { apply indexOf_found in E. contradiction. }
    repeat split.
    + intros ->. reflexivity.
    + intros [-> | ->]; reflexivity.
    + intros ->. reflexivity.
    + intros [-> | [-> | [-> | ->]]]; reflexivity.
    + intros Hother.
      repeat match goal with
             | |- context [?a =? ?b] =>
                 destruct (Z.eqb_spec a b) as [Heq|?];
                 [exfalso; apply Hother; rewrite Heq;
                  apply list_elem_of_In; simpl; lia|]
             end.
      reflexivity.
Qed.

Lemma checkResponseStatus_classifies_witness :
  checkResponseStatus (mkResponse 503 ∅ "") (spread minimal_args) [200; 201]
    = Throw (UploadFailedError 503).
Proof.
  destruct (checkResponseStatus_classifies
              (mkResponse 503 ∅ "") (spread minimal_args) [200; 201])
    as (_ & _ & H & _).
  destruct H as (_ & _ & _ & H & _).
  - simpl. intros Hin. apply list_elem_of_In in Hin. simpl in Hin. lia.
  - apply H. simpl. lia.
Defined.

(** ** The constructor *)

Section Construction.
Context {CU : ChecksumUtility}.

Lemma chunk_size_check (n : Z) :
  (negb (Z.rem n MIN_CHUNK_SIZE =? 0) || (n =? 0)) = true
  ↔ n = 0 ∨ ¬ (MIN_CHUNK_SIZE | n).
Proof.
  unfold MIN_CHUNK_SIZE.
  rewrite orb_true_iff, negb_true_iff, Z.eqb_neq, Z.eqb_eq.
  rewrite <- (Z.rem_divide n 262144) by lia. tauto.
Qed.

(** C4. With the override unset, a chunk size that is zero or not a
    multiple of 262144 makes the constructor throw InvalidChunkSizeError;
    otherwise an absent id makes it throw MissingOptionsError; otherwise an
    absent url makes it throw MissingOptionsError; the minimal
    configuration with id "x" and url "http://h" constructs a session whose
    chunk size is the default 262144. *)
Theorem constructor_validates (args : Args) (allowSmallChunks : bool) :
  let o := spread args in
  let invalid_size :=
    (chunkSize o = 0 ∨ ¬ (MIN_CHUNK_SIZE | chunkSize o))
    ∧ allowSmallChunks = false in
  (invalid_size →
     Upload_constructor args allowSmallChunks
       = Throw (InvalidChunkSizeError (chunkSize o))) ∧
  (¬ invalid_size → arg_id args = None →
     Upload_constructor args allowSmallChunks
       = Throw (MissingOptionsError "The 'id' option is required")) ∧
  (¬ invalid_size → arg_id args ≠ None → arg_url args = None →
     ∃ message,
       Upload_constructor args allowSmallChunks
         = Throw (MissingOptionsError message)) ∧
  (arg_chunkSize args = None → chunkSize o = 262144) ∧
  (∃ u, Upload_constructor minimal_args false = Ok u
        ∧ chunkSize (opts u) = 262144
        ∧ id (opts u) = Some "x" ∧ url (opts u) = Some "http://h").
Proof.
  intros o invalid_size. unfold Upload_constructor. fold o.
  destruct ((negb (Z.rem (chunkSize o) MIN_CHUNK_SIZE =? 0) || (chunkSize o =? 0))
            && negb allowSmallChunks) eqn:Hsize.
  - assert (Hinv : invalid_size).
    { apply andb_true_iff in Hsize as [H1 H2].
      apply chunk_size_check in H1. apply negb_true_iff in H2. now split. }
    repeat split; try tauto.
    + subst o. simpl. now intros ->.
    + eexists. repeat split; reflexivity.
  - assert (Hok : ¬ invalid_size).
    { intros [H1 H2]. apply chunk_size_check in H1. subst allowSmallChunks.
      rewrite H1 in Hsize. discriminate. }
    repeat split; try tauto.
    + intros _ Hid. subst o. simpl. now rewrite Hid.
    + intros _ Hid Hurl. subst o. simpl. rewrite Hurl.
      destruct (arg_id args) as [i|]; [|congruence].
      simpl. destruct (String.eqb i ""); simpl; eauto.
    + subst o. simpl. now intros ->.
    + eexists. repeat split; reflexivity.
Qed.

End Construction.

Lemma constructor_validates_witness :
  @Upload_constructor counting_checksum
    (mkArgs (Some 1000) None None (Some "x") (Some "http://h") None None None)
    false
  = Throw (InvalidChunkSizeError 1000).
Proof.
  apply (@constructor_validates counting_checksum
           (mkArgs (Some 1000) None None (Some "x") (Some "http://h")
                   None None None) false).
  split; [|reflexivity].
  right. simpl. intros [k Hk]. unfold MIN_CHUNK_SIZE in Hk. lia.
Defined.

(** ** One attempt and the retry policy *)

Section ChunkUpload.
Context {CU : ChecksumUtility}.

Lemma add_events_app (a b : list event) (s : State) :
  add_events b (add_events a s) = add_events (a ++ b) s.
Proof.
  unfold add_events, on_world, set_trace. simpl. now rewrite app_assoc.
Qed.

Lemma add_events_nil (s : State) : add_events [] s = s.
Proof.
  destruct s as [u [net n cs tr ps]]. unfold add_events, on_world, set_trace.
  simpl. now rewrite app_nil_r.
Qed.

Lemma for_each_progress (f : frame) (l : list Z) (s : State) :
  for_each l (onUploadProgress_handler f) s
  = (Ok tt, add_events (map (progress_event f) l) s).
Proof.
  revert s. induction l as [|x l IH]; intros s; simpl.
  - now rewrite add_events_nil.
  - unfold mbind, M_bind, bind. simpl.
    rewrite IH. f_equal.
    exact (add_events_app [progress_event f x] (map (progress_event f) l) s).
Qed.

(** One attempt sends the chunk, relays the progress of the transport, and
    returns the verdict on what the transport answered. *)
Lemma uploadChunk_attempt_run (f : frame) (hs : list (string * string))
    (num : Z) (s : State) :
  let req := mkRequest (url (f_opts f)) (Some (f_chunk f)) hs in
  let x := transport (world s) (calls (world s)) req in
  uploadChunk_attempt f hs num s
  = (attempt_verdict (f_opts f) x,
     after_exchange (EPut req :: map (progress_event f) (progress x)) s).
Proof.
  intros req x.
  unfold uploadChunk_attempt, safePut, put, mbind, M_bind, bind, emit, update,
    get, of_result, ret, throw. simpl.
  fold req. fold x. rewrite for_each_progress.
  unfold attempt_verdict, after_exchange, add_events, on_world, set_trace,
    set_calls. simpl. rewrite <- app_assoc. simpl.
  destruct (outcome x); reflexivity.
Qed.

Lemma attempt_fails_verdict (o : Opts) (x : exchange) :
  attempt_fails x → ∃ e, attempt_verdict o x = Throw e.
Proof.
  unfold attempt_fails, attempt_verdict.
  destruct (outcome x) as [res|msg|res]; eauto;
    intros (H1 & H2 & H3); apply checkResponseStatus_refused;
    intros Hin; apply list_elem_of_In in Hin; simpl in Hin; lia.
Qed.


Lemma attempt_verdict_cases (o : Opts) (x : exchange) :
  attempt_verdict o x = Ok true ∨ ∃ e, attempt_verdict o x = Throw e.
Proof.
  unfold attempt_verdict.
  destruct (outcome x) as [res|msg|res]; eauto;
    (destruct (decide (status res ∈ [200; 201; 308])) as [Hin|Hn];
     [left; now apply checkResponseStatus_allowed
     |right; now apply checkResponseStatus_refused]).
Qed.

Lemma attempts_only_refl (d : Z) (s : State) : attempts_only d s s.
Proof.
  repeat split. exists []. split; [now rewrite app_nil_r | constructor].
Qed.

Lemma attempts_only_trans (d : Z) (s1 s2 s3 : State) :
  attempts_only d s1 s2 → attempts_only d s2 s3 → attempts_only d s1 s3.
Proof.
  intros (Ha & Hb & Hc & Hd & e1 & He1 & Hf1)
         (Ha' & Hb' & Hc' & Hd' & e2 & He2 & Hf2).
  repeat split; try congruence.
  exists (e1 ++ e2)%list. split.
  - rewrite He2, He1. now rewrite app_assoc.
  - now apply Forall_app.
Qed.

Lemma attempts_only_exchange (d : Z) (f : frame) (req : request)
    (l : list Z) (s : State) :
  attempts_only d s (after_exchange (EPut req :: map (progress_event f) l) s).
Proof.
  repeat split. eexists. split; [reflexivity|].
  constructor; [exact I|].
  apply Forall_forall. intros e He.
  apply list_elem_of_In, in_map_iff in He as (x & <- & _). exact I.
Qed.

Lemma attempts_only_backoff (d : Z) (s : State) :
  attempts_only d s (add_events [EBackoff d] s).
Proof.
  repeat split. eexists. split; [reflexivity|].
  constructor; [reflexivity | constructor].
Qed.

(** Whatever the transport does, the retried attempts touch nothing but
    the transport. *)
Lemma retry_from_attempts_only (f : frame) (hs : list (string * string))
    (d : Z) (left : nat) (num : Z) (s : State) :
  attempts_only d s (snd (retry_from (uploadChunk_attempt f hs) left num d s)).
Proof.
  revert num s. induction left as [|left IH]; intros num s; simpl;
    rewrite uploadChunk_attempt_run;
    destruct (attempt_verdict _ _) as [b|e]; simpl;
    try apply attempts_only_exchange.
  unfold mbind, M_bind, bind, emit, update. simpl.
  eapply attempts_only_trans; [apply attempts_only_exchange|].
  eapply attempts_only_trans; [apply attempts_only_backoff|].
  apply IH.
Qed.

(** When every attempt fails, the policy makes the first attempt and all
    its retries, and fails. *)
Lemma retry_from_all_fail (f : frame) (hs : list (string * string)) (d : Z)
    (left : nat) (num : Z) (s : State) :
  (∀ n, attempt_fails
          (transport (world s) n
             (mkRequest (url (f_opts f)) (Some (f_chunk f)) hs))) →
  let rs := retry_from (uploadChunk_attempt f hs) left num d s in
  (∃ e, fst rs = Throw e)
  ∧ calls (world (snd rs)) = (calls (world s) + left + 1)%nat.
Proof.
  revert num s. induction left as [|left IH]; intros num s Hfail; simpl;
    rewrite uploadChunk_attempt_run;
    destruct (attempt_fails_verdict (f_opts f) _ (Hfail (calls (world s))))
      as [e ->]; simpl.
  - split; [eauto | lia].
  - unfold mbind, M_bind, bind, emit, update. simpl.
    match goal with
    | |- context [retry_from _ left ?n d ?st] =>
        destruct (IH n st) as [He Hc]; [exact Hfail|]
    end.
    split; [exact He|]. rewrite Hc. simpl. lia.
Qed.


(** ** The body of uploadChunk *)

(** The body folds the chunk, runs the retried attempts, and then either
    records the chunk or fails with the one error it ever raises. *)
Lemma uploadChunk_body_eq (f : frame) (s : State) :
  uploadChunk_body f s =
  let rs := retry_from
              (uploadChunk_attempt f
                 (chunk_headers (f_opts f) (f_start f) (f_end f)))
              (Z.to_nat (backoffRetryLimit (f_opts f))) 1
              (backoffMillis (f_opts f)) (folded f s) in
  match fst rs with
  | Ok _ =>
      (Ok tt, recorded f (fst (getChecksum (spark (this s)) (f_chunk f)))
                (snd rs))
  | Throw _ => (Throw UploadUnableToRecoverError, snd rs)
  end.
Proof.
  unfold uploadChunk_body, folded, recorded, retry, retry_options, try_catch,
    mbind, M_bind, bind, emit, update, get, ret, throw, add_events,
    chunk_headers, chunk_upload_event.
  simpl. destruct (getChecksum (spark (this s)) (f_chunk f)) as [checksum sp'].
  simpl.
  match goal with
  | |- context [retry_from ?fn ?l ?n ?d ?st] =>
      destruct (retry_from fn l n d st) as [[b|e] s2]
  end; reflexivity.
Qed.

(** What a run of the body leaves behind, whatever the transport does. *)
Lemma uploadChunk_body_spec (f : frame) (s : State) :
  let cs := getChecksum (spark (this s)) (f_chunk f) in
  let r := fst (uploadChunk_body f s) in
  let s' := snd (uploadChunk_body f s) in
  this s' = set_spark (snd cs) (this s)
  ∧ transport (world s') = transport (world s)
  ∧ promises (world s') = promises (world s)
  ∧ ∃ evs, Forall (attempt_event (backoffMillis (f_opts f))) evs ∧
      ((r = Ok tt
        ∧ trace (world s')
          = (trace (world s) ++ EGetChecksum (f_chunk f) :: evs
               ++ [EAddChecksum (f_index f) (fst cs); chunk_upload_event f])%list
        ∧ checksums (world s')
          = FileMeta_addChecksum (f_meta f) (f_index f) (fst cs)
              (checksums (world s)))
       ∨ (r = Throw UploadUnableToRecoverError
          ∧ trace (world s')
            = (trace (world s) ++ EGetChecksum (f_chunk f) :: evs)%list
          ∧ checksums (world s') = checksums (world s))).
Proof.
  intros cs r s'. subst r s'. rewrite uploadChunk_body_eq. cbv zeta.
  match goal with
  | |- context [retry_from ?fn ?l ?n ?d ?st] =>
      pose proof (retry_from_attempts_only f
                    (chunk_headers (f_opts f) (f_start f) (f_end f)) d l n st)
        as (Hthis & Hnet & Hsums & Hproms & evs & Htrace & Hevs);
      destruct (retry_from fn l n d st) as [[b|e] s2]
  end; simpl in *.
  - rewrite Hthis, Hnet, Hproms, Hsums, Htrace. repeat split.
    exists evs. split; [exact Hevs|]. left. repeat split.
    rewrite <- !app_assoc. reflexivity.
  - rewrite Hthis, Hnet, Hproms, Hsums, Htrace. repeat split.
    exists evs. split; [exact Hevs|]. right. repeat split.
    rewrite <- !app_assoc. reflexivity.
Qed.

(** When every attempt fails the body spends its whole budget and raises
    UploadUnableToRecoverError. *)
Lemma uploadChunk_body_all_fail (f : frame) (s : State) :
  (∀ n, attempt_fails
          (transport (world s) n
             (mkRequest (url (f_opts f)) (Some (f_chunk f))
                (chunk_headers (f_opts f) (f_start f) (f_end f))))) →
  fst (uploadChunk_body f s) = Throw UploadUnableToRecoverError
  ∧ calls (world (snd (uploadChunk_body f s)))
    = (calls (world s) + Z.to_nat (backoffRetryLimit (f_opts f)) + 1)%nat.
Proof.
  intros Hfail. rewrite uploadChunk_body_eq. cbv zeta.
  match goal with
  | |- context [retry_from ?fn ?l ?n ?d ?st] =>
      destruct (retry_from_all_fail f
                  (chunk_headers (f_opts f) (f_start f) (f_end f)) d l n st)
        as [[e He] Hc]; [exact Hfail|];
      destruct (retry_from fn l n d st) as [r s2]
  end.
  simpl in *. subst r. simpl. split; [reflexivity | exact Hc].
Qed.


Lemma retry_from_calls_bound (f : frame) (hs : list (string * string)) (d : Z)
    (left : nat) (num : Z) (s : State) :
  let s' := snd (retry_from (uploadChunk_attempt f hs) left num d s) in
  (calls (world s) < calls (world s') ≤ calls (world s) + left + 1)%nat.
Proof.
  revert num s. induction left as [|left IH]; intros num s; simpl;
    rewrite uploadChunk_attempt_run;
    destruct (attempt_verdict _ _) as [b|e]; simpl; try lia.
  unfold mbind, M_bind, bind, emit, update. simpl.
  match goal with
  | |- context [retry_from _ left ?n d ?st] => specialize (IH n st)
  end.
  simpl in IH. lia.
Qed.

(** A run of the body makes at least one attempt and never more than the
    retry budget allows. *)
Lemma uploadChunk_body_calls_bound (f : frame) (s : State) :
  let s' := snd (uploadChunk_body f s) in
  (calls (world s) < calls (world s')
   ≤ calls (world s) + Z.to_nat (backoffRetryLimit (f_opts f)) + 1)%nat.
Proof.
  rewrite uploadChunk_body_eq. cbv zeta.
  match goal with
  | |- context [retry_from ?fn ?l ?n ?d ?st] =>
      pose proof (retry_from_calls_bound f
                    (chunk_headers (f_opts f) (f_start f) (f_end f)) d l n st)
        as Hb;
      destruct (retry_from fn l n d st) as [[b|e] s2]
  end; simpl in *; lia.
Qed.

(** ** A call of uploadChunk on a session that is not paused *)

Lemma uploadChunk_unpaused (index : Z) (chunk : list byte) (s : State) :
  paused (this s) = false →
  let f := uploadChunk_locals index chunk (this s) in
  uploadChunk index chunk s
  = (length (promises (world s)),
     on_world (λ w, set_promises
                      (promises w ++ [Settled (fst (uploadChunk_body f s))]) w)
       (snd (uploadChunk_body f s))).
Proof.
  intros Hp f. unfold uploadChunk. rewrite Hp. fold f.
  destruct (uploadChunk_body f s) as [r s1]. reflexivity.
Qed.

Lemma uploadChunk_unpaused_settles (index : Z) (chunk : list byte) (s : State) :
  paused (this s) = false →
  let f := uploadChunk_locals index chunk (this s) in
  promises (world (snd (uploadChunk index chunk s)))
    !! fst (uploadChunk index chunk s)
  = Some (Settled (fst (uploadChunk_body f s))).
Proof.
  intros Hp f. rewrite uploadChunk_unpaused by exact Hp. fold f. simpl.
  destruct (uploadChunk_body_spec f s) as (_ & _ & Hproms & _).
  rewrite Hproms. apply list_lookup_middle. reflexivity.
Qed.

Lemma uploadChunk_unpaused_this (index : Z) (chunk : list byte) (s : State) :
  paused (this s) = false →
  this (snd (uploadChunk index chunk s))
  = set_spark (snd (getChecksum (spark (this s)) chunk)) (this s).
Proof.
  intros Hp. rewrite uploadChunk_unpaused by exact Hp. simpl.
  now destruct (uploadChunk_body_spec
                  (uploadChunk_locals index chunk (this s)) s) as (-> & _).
Qed.




Lemma retry_from_first_event (f : frame) (hs : list (string * string)) (d : Z)
    (left : nat) (num : Z) (s : State) :
  ∃ rest,
    trace (world (snd (retry_from (uploadChunk_attempt f hs) left num d s)))
    = (trace (world s)
         ++ EPut (mkRequest (url (f_opts f)) (Some (f_chunk f)) hs) :: rest)%list.
Proof.
  destruct left as [|left]; simpl; rewrite uploadChunk_attempt_run;
    destruct (attempt_verdict _ _) as [b|e]; simpl; eauto.
  unfold mbind, M_bind, bind, emit, update. simpl.
  match goal with
  | |- context [retry_from ?fn left ?n d ?st] =>
      destruct (retry_from_attempts_only f hs d left n st)
        as (_ & _ & _ & _ & evs & Htrace & _)
  end.
  rewrite Htrace. simpl. rewrite <- !app_assoc. simpl. eauto.
Qed.

Lemma uploadChunk_body_first_events (f : frame) (s : State) :
  ∃ rest,
    trace (world (snd (uploadChunk_body f s)))
    = (trace (world s)
         ++ EGetChecksum (f_chunk f)
         :: EPut (mkRequest (url (f_opts f)) (Some (f_chunk f))
                    (chunk_headers (f_opts f) (f_start f) (f_end f)))
         :: rest)%list.
Proof.
  rewrite uploadChunk_body_eq. cbv zeta.
  match goal with
  | |- context [retry_from ?fn ?l ?n ?d ?st] =>
      destruct (retry_from_first_event f
                  (chunk_headers (f_opts f) (f_start f) (f_end f)) d l n st)
        as [rest Hrest];
      destruct (retry_from fn l n d st) as [[b|e] s2]
  end; simpl in *; rewrite Hrest, <- !app_assoc; simpl; eauto.
Qed.

Lemma uploadChunk_unpaused_transport (index : Z) (chunk : list byte)
    (s : State) :
  paused (this s) = false →
  transport (world (snd (uploadChunk index chunk s))) = transport (world s).
Proof.
  intros Hp. rewrite uploadChunk_unpaused by exact Hp. simpl.
  now destruct (uploadChunk_body_spec
                  (uploadChunk_locals index chunk (this s)) s) as (_ & -> & _).
Qed.

(** C10. Past the pause gate the chunk is folded into the accumulator
    before the first request leaves, and the accumulator keeps the fold
    whatever the outcome.  So when every attempt fails, the call is
    rejected with UploadUnableToRecoverError with the chunk folded in, and
    a second call for the same index folds the same bytes once more. *)
Theorem uploadChunk_fold_survives_failure (index : Z) (chunk : list byte)
    (s : State) :
  let o := opts (this s) in
  let f := uploadChunk_locals index chunk (this s) in
  let fold_chunk sp := snd (getChecksum sp chunk) in
  let c1 := uploadChunk index chunk s in
  let c2 := uploadChunk index chunk (snd c1) in
  (∀ s1, let s2 := snd (uploadChunk_body f s1) in
         spark (this s2) = fold_chunk (spark (this s1))
         ∧ ∃ rest, trace (world s2)
                   = (trace (world s1) ++ EGetChecksum chunk
                        :: EPut (chunk_request o index chunk) :: rest)%list)
  ∧ (paused (this s) = false →
     (∀ n, attempt_fails (transport (world s) n (chunk_request o index chunk))) →
     promises (world (snd c1)) !! fst c1
       = Some (Settled (Throw UploadUnableToRecoverError))
     ∧ spark (this (snd c1)) = fold_chunk (spark (this s))
     ∧ promises (world (snd c2)) !! fst c2
       = Some (Settled (Throw UploadUnableToRecoverError))
     ∧ spark (this (snd c2)) = fold_chunk (fold_chunk (spark (this s)))).
Proof.
  intros o f fold_chunk c1 c2. split.
  - intros s1 s2. split.
    + subst s2. now destruct (uploadChunk_body_spec f s1) as (-> & _).
    + apply (uploadChunk_body_first_events f s1).
  - intros Hp Hfail.
    assert (Hthis1 : this (snd c1) = set_spark (fold_chunk (spark (this s))) (this s)).
    { apply uploadChunk_unpaused_this. exact Hp. }
    assert (Hp1 : paused (this (snd c1)) = false).
    { rewrite Hthis1. exact Hp. }
    assert (Hfail1 : ∀ n, attempt_fails
                            (transport (world (snd c1)) n
                               (chunk_request (opts (this (snd c1))) index chunk))).
    { intros n. unfold c1. rewrite uploadChunk_unpaused_transport by exact Hp.
      fold c1. rewrite Hthis1. apply Hfail. }
    split; [|split; [|split]].
    + unfold c1. rewrite uploadChunk_unpaused_settles by exact Hp. cbv zeta.
      destruct (uploadChunk_body_all_fail f s Hfail) as [Hr _].
      unfold f in Hr. now rewrite Hr.
    + rewrite Hthis1. reflexivity.
    + unfold c2. rewrite uploadChunk_unpaused_settles by exact Hp1. cbv zeta.
      destruct (uploadChunk_body_all_fail
                  (uploadChunk_locals index chunk (this (snd c1)))
                  (snd c1) Hfail1) as [Hr _].
      now rewrite Hr.
    + unfold c2. rewrite uploadChunk_unpaused_this by exact Hp1.
      rewrite Hthis1. reflexivity.
Qed.

(** ** The retry configuration *)

Lemma constructor_ok (args : Args) (allowSmallChunks : bool) (u : Upload) :
  Upload_constructor args allowSmallChunks = Ok u →
  u = {| paused := false;
         unpauseHandlers := [];
         spark := spark_new;
         opts := spread args;
         meta := mkFileMeta (arg_id args) 0 (chunkSize (spread args))
                   (storage (spread args)) |}.
Proof.
  unfold Upload_constructor.
  repeat match goal with
         | |- context [if ?b then _ else _] => destruct b
         end; intros H; inversion H. reflexivity.
Qed.

(** C9, as the code has it.  The base delay of the retry policy is the
    configuration field backoffMillis, 1000 when it is omitted, and the
    retry budget is backoffRetryLimit, 5 when it is omitted: these two are
    the options handed to the policy, every wait between two attempts of a
    chunk has that base delay, and a chunk is never attempted more than
    budget + 1 times.  A field backoffDelayMillis is copied into the
    options and read by nothing. *)
Theorem retry_uses_backoffMillis (args : Args) (allowSmallChunks : bool)
    (u : Upload) :
  Upload_constructor args allowSmallChunks = Ok u →
  let o := opts u in
  let delay := default 1000 (arg_backoffMillis args) in
  let budget := default 5 (arg_backoffRetryLimit args) in
  backoffMillis o = delay
  ∧ backoffRetryLimit o = budget
  ∧ backoffDelayMillis o = arg_backoffDelayMillis args
  ∧ retry_options o = {| retries := budget; minTimeout := delay |}
  ∧ ∀ index chunk s,
      let s' := snd (uploadChunk_body (uploadChunk_locals index chunk u) s) in
      (∃ evs, trace (world s') = (trace (world s) ++ evs)%list
              ∧ ∀ d, EBackoff d ∈ evs → d = delay)
      ∧ (calls (world s') ≤ calls (world s) + Z.to_nat budget + 1)%nat.
Proof.
  intros Hu o delay budget. apply constructor_ok in Hu. subst u. simpl in o.
  repeat split.
  - destruct (uploadChunk_body_spec
                (uploadChunk_locals index chunk
                   {| paused := false; unpauseHandlers := [];
                      spark := spark_new; opts := spread args;
                      meta := mkFileMeta (arg_id args) 0
                                (chunkSize (spread args))
                                (storage (spread args)) |}) s)
      as (_ & _ & _ & evs & Hevs & Hcases).
    assert (Hin : ∀ d, EBackoff d ∈ evs → d = delay).
    { intros d Hd. rewrite Forall_forall in Hevs. apply (Hevs _ Hd). }
    destruct Hcases as [(_ & Htrace & _) | (_ & Htrace & _)];
      eexists; (split; [exact Htrace|]); intros d Hd.
    + apply elem_of_cons in Hd as [Hd|Hd]; [discriminate|].
      apply elem_of_app in Hd as [Hd|Hd]; [now apply Hin|].
      apply list_elem_of_In in Hd. simpl in Hd.
      destruct Hd as [Hd|[Hd|[]]]; discriminate.
    + apply elem_of_cons in Hd as [Hd|Hd]; [discriminate|]. now apply Hin.
  - apply (uploadChunk_body_calls_bound
             (uploadChunk_locals index chunk
                {| paused := false; unpauseHandlers := [];
                   spark := spark_new; opts := spread args;
                   meta := mkFileMeta (arg_id args) 0
                             (chunkSize (spread args))
                             (storage (spread args)) |}) s).
Qed.

End ChunkUpload.




Lemma uploadChunk_fold_survives_failure_witness :
  spark (this (snd (uploadChunk 0 ["a"%byte]
                      (snd (uploadChunk 0 ["a"%byte] (fresh_state 500))))))
  = (["a"%byte; "a"%byte] : list byte).
Proof.
  destruct (uploadChunk_fold_survives_failure 0 ["a"%byte] (fresh_state 500))
    as (_ & H).
  destruct H as (_ & _ & _ & H).
  - reflexivity.
  - intros n. by_evaluation.
  - exact H.
Defined.

Lemma retry_uses_backoffMillis_witness :
  retry_options (opts delay_upload) = {| retries := 1; minTimeout := 1000 |}.
Proof.
  apply (retry_uses_backoffMillis delay_args false delay_upload).
  reflexivity.
Defined.

(** The claim C9 as the specification words it fails: with
    backoffDelayMillis set to 50 and a transport that always answers 500,
    the policy is handed the delay 1000 and waits with it. *)
Lemma backoffDelayMillis_is_not_read :
  @Upload_constructor counting_checksum delay_args false = Ok delay_upload
  ∧ arg_backoffDelayMillis delay_args = Some 50
  ∧ minTimeout (retry_options (opts delay_upload)) = 1000
  ∧ trace (world (snd (uploadChunk 0 []
                         (initial delay_upload (always_status 500) ∅))))
    = [EGetChecksum []; EPut empty_chunk_request; EBackoff 1000;
       EPut empty_chunk_request]
  ∧ ¬ (∀ args allowSmallChunks (u : @Upload counting_checksum),
         Upload_constructor args allowSmallChunks = Ok u →
         minTimeout (retry_options (opts u))
         = default 1000 (arg_backoffDelayMillis args)).
Proof.
  repeat split; try reflexivity.
  intros H. specialize (H delay_args false delay_upload eq_refl).
  discriminate H.
Qed.

(** ** The Range header *)

Lemma string_app_cons (c : ascii) (a b : string) :
  String c a +:+ b = String c (a +:+ b).
Proof. reflexivity. Qed.

Lemma string_app_nil_l (b : string) : "" +:+ b = b.
Proof. reflexivity. Qed.

Lemma string_app_assoc (a b c : string) : (a +:+ b) +:+ c = a +:+ b +:+ c.
Proof.
  induction a as [|x a IH]; rewrite ?string_app_cons, ?string_app_nil_l;
    [reflexivity | now rewrite IH].
Qed.

Lemma string_app_nil_r (a : string) : a +:+ "" = a.
Proof.
  induction a as [|x a IH]; rewrite ?string_app_cons, ?string_app_nil_l;
    [reflexivity | now rewrite IH].
Qed.

Lemma all_digits_app (a b : string) :
  all_digits (a +:+ b) = all_digits a && all_digits b.
Proof.
  induction a as [|x a IH]; rewrite ?string_app_cons, ?string_app_nil_l;
    simpl; [reflexivity|].
  rewrite IH. now destruct (is_digit x).
Qed.

(** A match of the lazy group took a non-empty run of digits and the rest
    of the pattern accepted what follows. *)
Lemma lazy_digits_sound {R} (k : string → string → option R) (s taken : string)
    (r : R) :
  lazy_digits taken s k = Some r →
  ∃ d rest, s = d +:+ rest ∧ d ≠ "" ∧ all_digits d = true
            ∧ k (taken +:+ d) rest = Some r.
Proof.
  revert taken. induction s as [|c s IH]; intros taken; simpl; [discriminate|].
  destruct (is_digit c) eqn:Hc; [|discriminate].
  destruct (k (taken +:+ String c "") s) as [r'|] eqn:Hk.
  - intros [= ->]. exists (String c ""), s. simpl. rewrite Hc.
    repeat split; [discriminate | exact Hk].
  - intros H. apply IH in H as (d & rest & -> & Hd & Hdig & Hk').
    exists (String c d), rest. simpl. rewrite Hc, Hdig.
    repeat split; [discriminate|].
    rewrite string_app_assoc in Hk'. exact Hk'.
Qed.

(** On a run of digits that ends the string or stops at a character that is
    no digit, the lazy group takes the whole run, provided the rest of the
    pattern refuses to start at a digit. *)
Lemma lazy_digits_run {R} (k : string → string → option R)
    (d rest taken : string) :
  all_digits d = true → d ≠ "" →
  (∀ g c t, is_digit c = true → k g (String c t) = None) →
  match rest with String c _ => is_digit c = false | "" => True end →
  lazy_digits taken (d +:+ rest) k = k (taken +:+ d) rest.
Proof.
  intros Hd Hne Hk Hrest. revert taken Hd Hne.
  induction d as [|c d IH]; intros taken Hd Hne; [congruence|].
  simpl in Hd. apply andb_true_iff in Hd as [Hc Hd].
  rewrite string_app_cons. simpl. rewrite Hc.
  destruct d as [|c' d].
  - rewrite string_app_nil_l.
    destruct (k (taken +:+ String c "") rest) as [r|] eqn:Hkr;
      [reflexivity|].
    destruct rest as [|c' rest]; simpl; [reflexivity|]. now rewrite Hrest.
  - assert (Hc' : is_digit c' = true).
    { simpl in Hd. now apply andb_true_iff in Hd as [? _]. }
    rewrite string_app_cons. rewrite (Hk _ c' _ Hc').
    rewrite <- string_app_cons.
    rewrite IH by (assumption || discriminate).
    now rewrite string_app_assoc.
Qed.

Lemma lazy_digits_to_end {R} (k : string → string → option R)
    (d taken : string) :
  all_digits d = true → d ≠ "" →
  (∀ g c t, is_digit c = true → k g (String c t) = None) →
  lazy_digits taken d k = k (taken +:+ d) "".
Proof.
  intros Hd Hne Hk. rewrite <- (string_app_nil_r d) at 1.
  now apply lazy_digits_run.
Qed.

Lemma match_here_complete (d1 d2 : string) :
  all_digits d1 = true → d1 ≠ "" → all_digits d2 = true → d2 ≠ "" →
  match_here (d1 +:+ "-" +:+ d2) = Some (d1, d2).
Proof.
  intros H1 N1 H2 N2. unfold match_here.
  rewrite (lazy_digits_run _ d1 ("-" +:+ d2) "" H1 N1).
  - rewrite !string_app_nil_l.
    change ("-" +:+ d2) with (String "-"%char d2). cbv beta iota.
    rewrite (lazy_digits_to_end _ d2 "" H2 N2).
    + now rewrite string_app_nil_l.
    + intros g c t Hc. reflexivity.
  - intros g c t Hc. destruct (Ascii.eqb_spec c "-") as [->|Hne].
    + discriminate Hc.
    + destruct c as [[] [] [] [] [] [] [] []]; try reflexivity. congruence.
  - reflexivity.
Qed.

Lemma match_here_sound (s g1 g2 : string) :
  match_here s = Some (g1, g2) →
  s = g1 +:+ "-" +:+ g2 ∧ all_digits g2 = true ∧ g2 ≠ "".
Proof.
  unfold match_here. intros H.
  apply lazy_digits_sound in H as (d1 & rest & -> & _ & _ & H). simpl in H.
  destruct rest as [|c rest]; [discriminate|].
  destruct (Ascii.eqb_spec c "-") as [->|Hne].
  - apply lazy_digits_sound in H as (d2 & rest' & -> & N2 & H2 & H).
    simpl in H. destruct rest'; [|discriminate].
    injection H as <- <-. rewrite string_app_nil_r. auto.
  - destruct c as [[] [] [] [] [] [] [] []]; try discriminate. congruence.
Qed.

Lemma regex_match_sound (s g1 g2 : string) :
  regex_match s = Some (g1, g2) →
  ∃ pre, s = pre +:+ g1 +:+ "-" +:+ g2 ∧ all_digits g2 = true ∧ g2 ≠ "".
Proof.
  induction s as [|c s IH]; simpl.
  - discriminate.
  - destruct (match_here (String c s)) as [g|] eqn:E.
    + intros [= ->]. apply match_here_sound in E. now exists "".
    + intros H. apply IH in H as (pre & -> & Hd). now exists (String c pre).
Qed.

(** What follows the last dash of a string is determined by the string. *)
Lemma after_last_dash_unique (a b x y : string) :
  a +:+ "-" +:+ x = b +:+ "-" +:+ y →
  all_digits x = true → all_digits y = true → x = y.
Proof.
  change ("-" +:+ x) with (String "-"%char x).
  change ("-" +:+ y) with (String "-"%char y).
  revert b. induction a as [|c a IH]; intros [|c' b] H Hx Hy;
    rewrite ?string_app_cons, ?string_app_nil_l in H.
  - now injection H.
  - injection H as <- ->. rewrite all_digits_app in Hx. simpl in Hx.
    rewrite andb_false_r in Hx. discriminate.
  - injection H as -> <-. rewrite all_digits_app in Hy. simpl in Hy.
    rewrite andb_false_r in Hy. discriminate.
  - injection H as <- H. now apply (IH b).
Qed.

Lemma regex_match_here (s : string) (g : string * string) :
  match_here s = Some g → regex_match s = Some g.
Proof. destruct s; simpl; [discriminate | intros ->; reflexivity]. Qed.

(** On a header that ends in [<digits>-<digits>] the pattern matches and
    its second group is the final run of digits. *)
Lemma regex_match_range (pre d1 d2 : string) :
  all_digits d1 = true → d1 ≠ "" → all_digits d2 = true → d2 ≠ "" →
  ∃ g1, regex_match (pre +:+ d1 +:+ "-" +:+ d2) = Some (g1, d2).
Proof.
  intros H1 N1 H2 N2. induction pre as [|c pre IH].
  - exists d1. rewrite string_app_nil_l.
    now apply regex_match_here, match_here_complete.
  - rewrite string_app_cons. simpl.
    destruct (match_here (String c (pre +:+ d1 +:+ "-" +:+ d2)))
      as [[g1 g2]|] eqn:E.
    + exists g1. apply match_here_sound in E as (E & Hg & _).
      rewrite <- string_app_cons, <- string_app_assoc in E.
      now rewrite (after_last_dash_unique _ _ _ _ E H2 Hg).
    + exact IH.
Qed.

Lemma is_digit_pretty_N_char (x : N) : is_digit (pretty_N_char x) = true.
Proof. unfold pretty_N_char. repeat case_match; reflexivity. Qed.

Lemma digit_value_pretty_N_char (x : N) :
  (x < 10)%N → digit_value (pretty_N_char x) = Z.of_N x.
Proof.
  intros Hx.
  assert (x = 0 ∨ x = 1 ∨ x = 2 ∨ x = 3 ∨ x = 4 ∨ x = 5 ∨ x = 6 ∨ x = 7
          ∨ x = 8 ∨ x = 9)%N as H by lia.
  repeat (destruct H as [->|H]; [reflexivity|]). now subst x.
Qed.

Lemma pretty_N_go_digits (x : N) (s : string) :
  all_digits s = true → all_digits (pretty_N_go x s) = true.
Proof.
  revert s. induction (N.lt_wf_0 x) as [x _ IH]; intros s Hs.
  destruct (N.eq_dec x 0%N) as [->|Hx]; [exact Hs|].
  rewrite pretty_N_go_step by lia.
  apply IH; [apply N.div_lt; lia|].
  simpl. now rewrite is_digit_pretty_N_char.
Qed.

Lemma pretty_N_go_nonempty (x : N) (s : string) :
  s ≠ "" → pretty_N_go x s ≠ "".
Proof.
  revert s. induction (N.lt_wf_0 x) as [x _ IH]; intros s Hs.
  destruct (N.eq_dec x 0%N) as [->|Hx]; [exact Hs|].
  rewrite pretty_N_go_step by lia.
  apply IH; [apply N.div_lt; lia | discriminate].
Qed.

Lemma parseInt_from_digits (s : string) (acc : Z) :
  all_digits s = true →
  parseInt_from acc s
  = acc * 10 ^ Z.of_nat (String.length s) + parseInt_from 0 s.
Proof.
  revert acc. induction s as [|c s IH]; intros acc Hs; simpl in *.
  - lia.
  - apply andb_true_iff in Hs as [Hc Hs]. rewrite Hc.
    rewrite (IH (10 * acc + digit_value c)) by exact Hs.
    rewrite (IH (10 * 0 + digit_value c)) by exact Hs.
    change (String.length (String c s)) with (S (String.length s)).
    rewrite Nat2Z.inj_succ, Z.pow_succ_r by lia. lia.
Qed.

Lemma parseInt_pretty_N_go (x : N) (s : string) :
  all_digits s = true →
  parseInt_from 0 (pretty_N_go x s)
  = Z.of_N x * 10 ^ Z.of_nat (String.length s) + parseInt_from 0 s.
Proof.
  revert s. induction (N.lt_wf_0 x) as [x _ IH]; intros s Hs.
  destruct (N.eq_dec x 0%N) as [->|Hx]; [rewrite pretty_N_go_0; lia|].
  rewrite pretty_N_go_step by lia.
  rewrite IH.
  - simpl String.length. simpl parseInt_from at 1.
    rewrite is_digit_pretty_N_char.
    rewrite (parseInt_from_digits s _ Hs).
    rewrite digit_value_pretty_N_char by (apply N.mod_lt; lia).
    rewrite Nat2Z.inj_succ, Z.pow_succ_r by lia.
    rewrite N2Z.inj_div, N2Z.inj_mod.
    pose proof (Z.div_mod (Z.of_N x) 10 ltac:(lia)) as Hdm.
    change (Z.of_N 10) with 10. nia.
  - apply N.div_lt; lia.
  - simpl. now rewrite is_digit_pretty_N_char.
Qed.

(** The decimal notation of a natural number is a non-empty run of digits
    that [parseInt] reads back. *)
Lemma pretty_Z_decimal (n : Z) :
  0 <= n →
  all_digits (pretty n) = true ∧ pretty n ≠ "" ∧ parseInt (pretty n) = n.
Proof.
  intros Hn. destruct n as [|p|p]; [repeat split; discriminate| |lia].
  change (pretty (Z.pos p)) with (pretty_N_go (N.pos p) "").
  repeat split.
  - now apply pretty_N_go_digits.
  - rewrite pretty_N_go_step by lia.
    apply pretty_N_go_nonempty. discriminate.
  - unfold parseInt. rewrite parseInt_pretty_N_go by reflexivity. simpl. lia.
Qed.

(** ** getRemoteResumeIndex *)

Section ResumeIndex.
Context {CU : ChecksumUtility}.

(** The probe sends one request and touches nothing else. *)
Lemma getRemoteResumeIndex_state (s : State) :
  snd (getRemoteResumeIndex s)
  = after_exchange [EPut (probe_request (opts (this s)))] s.
Proof.
  unfold getRemoteResumeIndex, safePut, put, mbind, M_bind, bind, emit, update,
    get, of_result, ret, throw. simpl.
  destruct (outcome _) as [res|msg|res]; simpl; try reflexivity;
    (destruct (checkResponseStatus res _ _); simpl; [|reflexivity];
     destruct (headers res !! "range") as [header|]; simpl; [|reflexivity];
     destruct (regex_match header); reflexivity).
Qed.

(** What the probe returns when the transport settles with a response. *)
Lemma getRemoteResumeIndex_result (s : State) (res : response) :
  let o := opts (this s) in
  settles_with (transport (world s) (calls (world s)) (probe_request o)) res →
  fst (getRemoteResumeIndex s)
  = match checkResponseStatus res o [308] with
    | Throw e => Throw e
    | Ok _ =>
        match headers res !! "range" with
        | None => Throw (TypeError "Cannot read properties of undefined")
        | Some header =>
            match regex_match header with
            | None => Throw (TypeError "Cannot read properties of null")
            | Some range =>
                Ok (floor_div (parseInt (snd range) + 1) (chunkSize o))
            end
        end
    end.
Proof.
  intros o Hsettle.
  unfold getRemoteResumeIndex, safePut, put, mbind, M_bind, bind, emit, update,
    get, of_result, ret, throw. simpl.
  unfold settles_with, probe_request, o in Hsettle.
  destruct Hsettle as [-> | ->]; simpl;
    (destruct (checkResponseStatus res _ _); simpl; [|reflexivity];
     destruct (headers res !! "range") as [header|]; simpl; [|reflexivity];
     destruct (regex_match header); reflexivity).
Qed.

(** C2. getRemoteResumeIndex sends one PUT without a body and with the
    header Content-Range: bytes */*.  When the chunk size is positive, the
    answer has status 308 and its Range header ends in <start>-<end>, the
    result is floor((end + 1) / chunkSize); with bytes=0-524287 and chunk
    size 262144 it is 2.  When the status is not 308 the call fails with
    the error of the classifier for that status. *)
Theorem getRemoteResumeIndex_spec (s : State) :
  let o := opts (this s) in
  let probe := {| req_url := url o;
                  req_body := None;
                  req_headers := [("Content-Range", "bytes */*")] |} in
  let x := transport (world s) (calls (world s)) probe in
  let r := fst (getRemoteResumeIndex s) in
  let s' := snd (getRemoteResumeIndex s) in
  trace (world s') = (trace (world s) ++ [EPut probe])%list
  ∧ calls (world s') = S (calls (world s))
  ∧ (∀ res pre start end_,
       0 < chunkSize o → settles_with x res → status res = 308 →
       0 <= start → 0 <= end_ →
       headers res !! "range"
         = Some (pre +:+ pretty start +:+ "-" +:+ pretty end_) →
       r = Ok (Num ((end_ + 1) / chunkSize o)))
  ∧ (∀ res, chunkSize o = 262144 → settles_with x res → status res = 308 →
            headers res !! "range" = Some "bytes=0-524287" →
            r = Ok (Num 2))
  ∧ (∀ res, settles_with x res → status res ≠ 308 →
            ∃ e, checkResponseStatus res o [308] = Throw e ∧ r = Throw e).
Proof.
  intros o probe x r s'. subst r s'.
  rewrite getRemoteResumeIndex_state. split; [reflexivity|].
  split; [reflexivity|]. split; [|split].
  - intros res pre start end_ Hsize Hsettle Hst Hstart Hend Hrange.
    rewrite (getRemoteResumeIndex_result s res Hsettle).
    rewrite checkResponseStatus_allowed
      by (rewrite Hst; apply list_elem_of_In; simpl; lia).
    rewrite Hrange.
    destruct (pretty_Z_decimal start Hstart) as (Hd1 & Hn1 & _).
    destruct (pretty_Z_decimal end_ Hend) as (Hd2 & Hn2 & Hparse).
    destruct (regex_match_range pre _ _ Hd1 Hn1 Hd2 Hn2) as [g1 ->].
    simpl snd. rewrite Hparse. unfold floor_div. fold o.
    destruct (Z.eqb_spec (chunkSize o) 0); [lia | reflexivity].
  - intros res Hsize Hsettle Hst Hrange.
    rewrite (getRemoteResumeIndex_result s res Hsettle).
    rewrite checkResponseStatus_allowed
      by (rewrite Hst; apply list_elem_of_In; simpl; lia).
    rewrite Hrange. fold o. rewrite Hsize. reflexivity.
  - intros res Hsettle Hst.
    rewrite (getRemoteResumeIndex_result s res Hsettle).
    destruct (checkResponseStatus_refused res o [308]) as [e He].
    + intros Hin. apply list_elem_of_In in Hin. simpl in Hin. lia.
    + exists e. fold o. rewrite He. split; reflexivity.
Qed.

End ResumeIndex.

Lemma getRemoteResumeIndex_spec_witness :
  fst (getRemoteResumeIndex
         (initial minimal_upload (resumable "bytes=0-524287") ∅))
  = Ok (Num ((524287 + 1) / 262144)).
Proof.
  destruct (getRemoteResumeIndex_spec
              (initial minimal_upload (resumable "bytes=0-524287") ∅))
    as (_ & _ & H & _).
  apply (H (mkResponse 308 {["range" := "bytes=0-524287"]} "")
           "bytes=" 0 524287).
  - reflexivity.
  - left. reflexivity.
  - reflexivity.
  - lia.
  - lia.
  - reflexivity.
Defined.

(** ** The pause gate *)

Lemma release_length (hs : list nat) (ps : list promise) :
  length (release hs ps) = length ps.
Proof.
  revert ps. induction hs as [|h hs IH]; intros ps; simpl; [reflexivity|].
  unfold release in IH. rewrite IH.
  destruct (ps !! h) as [[f|f|r]|]; try reflexivity. apply length_insert.
Qed.

(** Releasing leaves alone every promise that is not waiting to be
    unpaused. *)
Lemma release_other (hs : list nat) (ps : list promise) (p : nat)
    (x : promise) :
  ps !! p = Some x → (∀ f, x ≠ Gated f) → release hs ps !! p = Some x.
Proof.
  revert ps. induction hs as [|h hs IH]; intros ps Hp Hx; simpl; [exact Hp|].
  apply IH; [|exact Hx].
  destruct (ps !! h) as [[f|f|r]|] eqn:Hh; try exact Hp.
  destruct (decide (h = p)) as [->|Hne].
  - rewrite Hp in Hh. injection Hh as ->. now destruct (Hx f).
  - now rewrite list_lookup_insert_ne.
Qed.

(** Releasing turns a waiting promise whose resolver is called into a
    released one, and leaves it waiting otherwise. *)
Lemma release_gated (hs : list nat) (ps : list promise) (p : nat) (f : frame) :
  ps !! p = Some (Gated f) →
  release hs ps !! p
  = Some (if decide (p ∈ hs) then Released f else Gated f).
Proof.
  revert ps. induction hs as [|h hs IH]; intros ps Hp; simpl.
  - rewrite Hp. reflexivity.
  - destruct (decide (h = p)) as [->|Hne].
    + rewrite Hp. rewrite decide_True by left.
      apply release_other; [|discriminate].
      apply list_lookup_insert_eq. now apply lookup_lt_Some in Hp.
    + fold (release hs
              (match ps !! h with
               | Some (Gated f0) => <[h := Released f0]> ps
               | _ => ps
               end)).
      rewrite IH.
      * destruct (decide (p ∈ hs)) as [Hin|Hnin].
        -- rewrite decide_True by now right. reflexivity.
        -- rewrite decide_False; [reflexivity|].
           intros Hin. apply elem_of_cons in Hin as [->|Hin]; congruence.
      * destruct (ps !! h) as [[f0|f0|r]|]; try exact Hp.
        now rewrite list_lookup_insert_ne.
Qed.

Section PauseGate.
Context {CU : ChecksumUtility}.

Lemma for_each_resolve (l : list nat) (s : State) :
  for_each l resolve s = (Ok tt, released l s).
Proof.
  revert s. induction l as [|h l IH]; intros [u [net n cs tr ps]].
  - unfold released, add_events, on_world, set_promises, set_trace. simpl.
    now rewrite app_nil_r.
  - simpl. unfold mbind, M_bind, bind, resolve, emit, update. simpl.
    rewrite IH.
    unfold released, add_events, on_world, set_promises, set_trace. simpl.
    destruct (ps !! h) as [[f|f|r]|]; simpl; rewrite <- app_assoc;
      reflexivity.
Qed.

Lemma unpause_eq (s : State) :
  unpause s
  = on_this (set_unpauseHandlers [])
      (released (unpauseHandlers (this s)) (on_this (set_paused false) s)).
Proof. unfold unpause. simpl. now rewrite for_each_resolve. Qed.

(** The body of a call changes no field of the object but the accumulator,
    and no promise. *)
Lemma uploadChunk_body_frame (f : frame) (s : State) :
  let s' := snd (uploadChunk_body f s) in
  promises (world s') = promises (world s)
  ∧ unpauseHandlers (this s') = unpauseHandlers (this s)
  ∧ paused (this s') = paused (this s)
  ∧ opts (this s') = opts (this s)
  ∧ meta (this s') = meta (this s).
Proof.
  destruct (uploadChunk_body_spec f s) as (Hthis & _ & Hproms & _).
  cbv zeta. rewrite Hthis, Hproms. repeat split.
Qed.

(** A promise changes only by its own release or its own continuation. *)
Lemma exec_promise_stable (a : action) (s : State) (p : nat) (x : promise) :
  promises (world s) !! p = Some x →
  ((∃ f, x = Gated f) → a ≠ AUnpause) →
  ((∃ f, x = Released f) → a ≠ AResume p) →
  promises (world (exec a s)) !! p = Some x.
Proof.
  intros Hp Hgated Hreleased. destruct a as [| | |index chunk| |q]; cbn [exec].
  - exact Hp.
  - rewrite unpause_eq. simpl. apply release_other; [exact Hp|].
    intros f ->. apply Hgated; eauto.
  - exact Hp.
  - unfold uploadChunk. destruct (paused (this s)).
    + simpl. rewrite lookup_app_l; [exact Hp|]. now apply lookup_lt_Some in Hp.
    + destruct (uploadChunk_body_frame
                  (uploadChunk_locals index chunk (this s)) s) as (Hps & _).
      destruct (uploadChunk_body _ s) as [r s1]. simpl in *. rewrite Hps.
      rewrite lookup_app_l; [exact Hp|]. now apply lookup_lt_Some in Hp.
  - rewrite getRemoteResumeIndex_state. exact Hp.
  - unfold resume. destruct (promises (world s) !! q) as [[f|f|r]|] eqn:Hq;
      try exact Hp.
    destruct (uploadChunk_body_frame f s) as (Hps & _).
    destruct (uploadChunk_body f s) as [r s1]. simpl in *. rewrite Hps.
    destruct (decide (q = p)) as [->|Hne].
    + rewrite Hp in Hq. injection Hq as ->. destruct Hreleased; eauto.
    + now rewrite list_lookup_insert_ne.
Qed.

Lemma run_promise_stable (l : list action) (s : State) (p : nat) (x : promise) :
  promises (world s) !! p = Some x →
  ((∃ f, x = Gated f) → AUnpause ∉ l) →
  ((∃ f, x = Released f) → AResume p ∉ l) →
  promises (world (run l s)) !! p = Some x.
Proof.
  revert s. induction l as [|a l IH]; intros s Hp Hg Hr; [exact Hp|].
  simpl. apply IH.
  - apply exec_promise_stable; [exact Hp| |].
    + intros Hx ->. apply (Hg Hx). left.
    + intros Hx ->. apply (Hr Hx). left.
  - intros Hx Hin. apply (Hg Hx). now right.
  - intros Hx Hin. apply (Hr Hx). now right.
Qed.

Lemma gated_or_not (x : promise) : (∃ f, x = Gated f) ∨ (∀ f, x ≠ Gated f).
Proof. destruct x; [left; eauto | right; discriminate | right; discriminate]. Qed.

Lemma initial_gate_ok (u : Upload) (net : nat → request → exchange)
    (store : gmap (option string) (gmap Z string)) :
  unpauseHandlers u = [] → gate_ok (initial u net store).
Proof.
  intros Hu. unfold gate_ok. simpl. rewrite Hu. split; [constructor|].
  intros p. split.
  - intros H. inversion H.
  - intros [f H]. discriminate.
Qed.

Lemma unpause_gate_ok (s : State) : gate_ok s → gate_ok (unpause s).
Proof.
  intros [Hnd Hiff]. rewrite unpause_eq. unfold gate_ok. simpl.
  split; [constructor|]. intros p. split.
  - intros H. inversion H.
  - intros [f Hf]. exfalso.
    assert (Hlt : (p < length (promises (world s)))%nat).
    { apply lookup_lt_Some in Hf. now rewrite release_length in Hf. }
    apply lookup_lt_is_Some in Hlt as [x Hx].
    destruct (gated_or_not x) as [[f' ->]|Hng].
    + rewrite (release_gated _ _ _ _ Hx) in Hf.
      rewrite decide_True in Hf by (apply Hiff; eauto). discriminate.
    + rewrite (release_other _ _ _ _ Hx Hng) in Hf.
      injection Hf as ->. now destruct (Hng f).
Qed.

Lemma uploadChunk_gate_ok (index : Z) (chunk : list byte) (s : State) :
  gate_ok s → gate_ok (snd (uploadChunk index chunk s)).
Proof.
  intros [Hnd Hiff]. unfold uploadChunk.
  destruct (paused (this s)) eqn:Hpaused.
  - unfold gate_ok. simpl.
    assert (Hfresh : length (promises (world s)) ∉ unpauseHandlers (this s)).
    { intros Hin. apply Hiff in Hin as [f Hf].
      apply lookup_lt_Some in Hf. lia. }
    split.
    + apply NoDup_app. repeat split; [exact Hnd| |apply NoDup_singleton].
      intros p Hp Hp'. apply list_elem_of_singleton in Hp'. now subst p.
    + intros p. rewrite elem_of_app, list_elem_of_singleton.
      destruct (lt_eq_lt_dec p (length (promises (world s))))
        as [[Hlt|Heq]|Hgt]; [| subst p |].
      * rewrite lookup_app_l by exact Hlt. rewrite Hiff.
        split; [intros [H|H]; [exact H | lia] | now left].
      * rewrite list_lookup_middle by reflexivity.
        split; [eauto | now right].
      * rewrite lookup_ge_None_2 by (rewrite length_app; simpl; lia).
        split; [|intros [f Hf]; discriminate].
        intros [Hin| ->]; [|lia].
        apply Hiff in Hin as [f Hf]. apply lookup_lt_Some in Hf. lia.
  - destruct (uploadChunk_body_frame
                (uploadChunk_locals index chunk (this s)) s) as (Hps & Hhs & _).
    destruct (uploadChunk_body _ s) as [r s1]. unfold gate_ok. simpl in *.
    rewrite Hps, Hhs. split; [exact Hnd|]. intros p. rewrite Hiff.
    destruct (lt_eq_lt_dec p (length (promises (world s))))
      as [[Hlt|Heq]|Hgt]; [| subst p |].
    + now rewrite lookup_app_l by exact Hlt.
    + rewrite list_lookup_middle by reflexivity.
      rewrite lookup_ge_None_2 by lia.
      split; intros [f Hf]; discriminate.
    + rewrite !lookup_ge_None_2 by (rewrite ?length_app; simpl; lia).
      reflexivity.
Qed.

Lemma resume_gate_ok (p : nat) (s : State) : gate_ok s → gate_ok (resume p s).
Proof.
  intros [Hnd Hiff]. unfold resume.
  destruct (promises (world s) !! p) as [[f|f|r]|] eqn:Hp; try (now split).
  destruct (uploadChunk_body_frame f s) as (Hps & Hhs & _).
  destruct (uploadChunk_body f s) as [r s1]. unfold gate_ok. simpl in *.
  rewrite Hps, Hhs. split; [exact Hnd|]. intros q. rewrite Hiff.
  destruct (decide (p = q)) as [<-|Hne].
  - rewrite Hp. rewrite list_lookup_insert_eq by now apply lookup_lt_Some in Hp.
    split; intros [f' Hf']; discriminate.
  - now rewrite list_lookup_insert_ne.
Qed.

(** Every step of the session keeps the waiter list and the promises in
    agreement. *)
Lemma exec_gate_ok (a : action) (s : State) : gate_ok s → gate_ok (exec a s).
Proof.
  intros H. destruct a as [| | |index chunk| |q]; cbn [exec].
  - exact H.
  - now apply unpause_gate_ok.
  - exact H.
  - now apply uploadChunk_gate_ok.
  - rewrite getRemoteResumeIndex_state. exact H.
  - now apply resume_gate_ok.
Qed.

Lemma run_gate_ok (l : list action) (s : State) : gate_ok s → gate_ok (run l s).
Proof.
  revert s. induction l as [|a l IH]; intros s H; [exact H|].
  simpl. apply IH. now apply exec_gate_ok.
Qed.

(** No step of the session changes its configuration. *)
Lemma exec_config (a : action) (s : State) :
  opts (this (exec a s)) = opts (this s)
  ∧ meta (this (exec a s)) = meta (this s).
Proof.
  destruct a as [| | |index chunk| |q]; cbn [exec].
  - now split.
  - rewrite unpause_eq. now split.
  - now split.
  - unfold uploadChunk. destruct (paused (this s)); [now split|].
    destruct (uploadChunk_body_frame
                (uploadChunk_locals index chunk (this s)) s)
      as (_ & _ & _ & Ho & Hm).
    destruct (uploadChunk_body _ s) as [r s1]. now split.
  - rewrite getRemoteResumeIndex_state. now split.
  - unfold resume.
    destruct (promises (world s) !! q) as [[f|f|r]|]; try (now split).
    destruct (uploadChunk_body_frame f s) as (_ & _ & _ & Ho & Hm).
    destruct (uploadChunk_body f s) as [r s1]. now split.
Qed.

Lemma run_config (l : list action) (s : State) :
  opts (this (run l s)) = opts (this s)
  ∧ meta (this (run l s)) = meta (this s).
Proof.
  revert s. induction l as [|a l IH]; intros s; [now split|].
  simpl. destruct (IH (exec a s)) as [-> ->]. apply exec_config.
Qed.


(** The outcome of the retried attempts depends on the state only through
    the transport and the number of calls made to it. *)
Lemma retry_from_same_transport (f : frame) (hs : list (string * string))
    (d : Z) (left : nat) (num : Z) (s t : State) :
  transport (world s) = transport (world t) →
  calls (world s) = calls (world t) →
  fst (retry_from (uploadChunk_attempt f hs) left num d s)
  = fst (retry_from (uploadChunk_attempt f hs) left num d t).
Proof.
  revert num s t. induction left as [|left IH]; intros num s t Hnet Hcalls;
    simpl; rewrite !uploadChunk_attempt_run; rewrite Hnet, Hcalls;
    destruct (attempt_verdict _ _) as [b|e]; simpl; try reflexivity.
  unfold mbind, M_bind, bind, emit, update. simpl.
  apply IH; simpl; congruence.
Qed.

(** The outcome of the body depends on the state only through the
    transport, the number of calls made to it, and the accumulator. *)
Lemma uploadChunk_body_same_transport (f : frame) (s t : State) :
  transport (world s) = transport (world t) →
  calls (world s) = calls (world t) →
  fst (uploadChunk_body f s) = fst (uploadChunk_body f t).
Proof.
  intros Hnet Hcalls. rewrite !uploadChunk_body_eq. cbv zeta.
  rewrite (retry_from_same_transport f _ _ _ _ (folded f s) (folded f t))
    by assumption.
  destruct (fst (retry_from _ _ _ _ (folded f t))); reflexivity.
Qed.

(** C8. For a session in any state it can reach, cancel leaves no
    persisted checksum under the id of the session and changes nothing
    else: the object (paused flag, waiter list, accumulator,
    configuration) is the same, nothing is sent, the entries of other ids
    stay, and no pending call is touched: each is where it was, and a
    released one settles afterwards as it would have without the cancel. *)
Theorem cancel_clears_only_checksums (args : Args) (allowSmallChunks : bool)
    (u : Upload) (net : nat → request → exchange)
    (store : gmap (option string) (gmap Z string)) (history : list action) :
  Upload_constructor args allowSmallChunks = Ok u →
  let s := run history (initial u net store) in
  let s' := cancel s in
  id (opts (this s)) = arg_id args
  ∧ checksums (world s') !! arg_id args = None
  ∧ (∀ k, k ≠ arg_id args →
          checksums (world s') !! k = checksums (world s) !! k)
  ∧ this s' = this s
  ∧ promises (world s') = promises (world s)
  ∧ transport (world s') = transport (world s)
  ∧ calls (world s') = calls (world s)
  ∧ trace (world s') = (trace (world s) ++ [EReset])%list
  ∧ (∀ p, promises (world (resume p s')) !! p
          = promises (world (resume p s)) !! p).
Proof.
  intros Hu s s'. apply constructor_ok in Hu.
  destruct (run_config history (initial u net store)) as [Ho Hm].
  fold s in Ho, Hm. simpl in Ho, Hm. subst u. simpl in Ho, Hm.
  assert (Hproms : promises (world s') = promises (world s)) by reflexivity.
  split; [now rewrite Ho|].
  split; [subst s'; unfold cancel, FileMeta_reset; simpl; rewrite Hm;
          apply lookup_delete_eq|].
  split; [intros k Hk; subst s'; unfold cancel, FileMeta_reset; simpl;
          rewrite Hm; now apply lookup_delete_ne|].
  do 5 (split; [reflexivity|]).
  intros p. clearbody s. unfold resume. rewrite Hproms.
  destruct (promises (world s) !! p) as [[f|f|r]|] eqn:Hp;
    try (rewrite Hproms; exact eq_refl).
  pose proof (uploadChunk_body_same_transport f s' s eq_refl eq_refl) as Hsame.
  destruct (uploadChunk_body_frame f s') as (Hps' & _).
  destruct (uploadChunk_body_frame f s) as (Hps & _).
  destruct (uploadChunk_body f s') as [r1 s1].
  destruct (uploadChunk_body f s) as [r2 s2].
  simpl in *. subst r1. rewrite Hps', Hps.
  reflexivity.
Qed.

End PauseGate.


Lemma cancel_clears_only_checksums_witness :
  checksums
    (world (cancel (run [AUploadChunk 0 ["a"%byte]] (fresh_state 200))))
    !! Some "x"
  = None.
Proof.
  apply (cancel_clears_only_checksums minimal_args false minimal_upload
           (always_status 200) ∅ [AUploadChunk 0 ["a"%byte]]).
  reflexivity.
Defined.

(** * Further properties of the code *)

(** ** The constructor, completely *)

Section ConstructionComplete.
Context {CU : ChecksumUtility}.

Lemma truthy_iff (v : option string) :
  truthy v = true ↔ ∃ x, v = Some x ∧ x ≠ "".
Proof.
  destruct v as [x|]; simpl.
  - rewrite negb_true_iff. destruct (String.eqb_spec x "") as [->|Hne].
    + split; [discriminate | intros (y & [= <-] & Hy); congruence].
    + split; [eauto | reflexivity].
  - split; [discriminate | intros (x & H & _); discriminate].
Qed.

Lemma chunk_size_accepted (n : Z) :
  (negb (Z.rem n MIN_CHUNK_SIZE =? 0) || (n =? 0)) = false
  ↔ n ≠ 0 ∧ (MIN_CHUNK_SIZE | n).
Proof.
  unfold MIN_CHUNK_SIZE.
  rewrite orb_false_iff, negb_false_iff, Z.eqb_eq, Z.eqb_neq.
  rewrite (Z.rem_divide n 262144) by lia. tauto.
Qed.

Lemma constructor_checks (args : Args) (allowSmallChunks : bool) (u : Upload) :
  let o := spread args in
  Upload_constructor args allowSmallChunks = Ok u
  ↔ (negb (Z.rem (chunkSize o) MIN_CHUNK_SIZE =? 0) || (chunkSize o =? 0))
      && negb allowSmallChunks = false
    ∧ truthy (arg_id args) = true
    ∧ truthy (arg_url args) = true
    ∧ u = {| paused := false;
             unpauseHandlers := [];
             spark := spark_new;
             opts := o;
             meta := mkFileMeta (arg_id args) 0 (chunkSize o) (storage o) |}.
Proof.
  intros o. unfold Upload_constructor. fold o.
  change (id o) with (arg_id args). change (url o) with (arg_url args).
  destruct ((negb (Z.rem (chunkSize o) MIN_CHUNK_SIZE =? 0)
             || (chunkSize o =? 0)) && negb allowSmallChunks);
    [split; [discriminate | intros (H & _); discriminate]|].
  destruct (truthy (arg_id args)); simpl;
    [|split; [discriminate | intros (_ & H & _); discriminate]].
  destruct (truthy (arg_url args)); simpl;
    [|split; [discriminate | intros (_ & _ & H & _); discriminate]].
  split.
  - intros [= <-]. repeat split.
  - intros (_ & _ & _ & ->). reflexivity.
Qed.

(** X1. The constructor returns a session exactly when the chunk size is a
    non-zero multiple of 262144 or the override is set, and id and url are
    both present and not the empty string; the session then holds the
    options after the defaults, is not paused and has no waiter.  So an
    empty id or url is refused like a missing one, and with the override
    every chunk size, zero included, is taken. *)
Theorem constructor_succeeds_iff (args : Args) (allowSmallChunks : bool)
    (u : Upload) :
  let o := spread args in
  Upload_constructor args allowSmallChunks = Ok u
  ↔ (allowSmallChunks = true
     ∨ (chunkSize o ≠ 0 ∧ (MIN_CHUNK_SIZE | chunkSize o)))
    ∧ (∃ i, arg_id args = Some i ∧ i ≠ "")
    ∧ (∃ w, arg_url args = Some w ∧ w ≠ "")
    ∧ u = {| paused := false;
             unpauseHandlers := [];
             spark := spark_new;
             opts := o;
             meta := mkFileMeta (arg_id args) 0 (chunkSize o) (storage o) |}.
Proof.
  intros o. rewrite constructor_checks. fold o.
  rewrite <- !truthy_iff. rewrite andb_false_iff, negb_false_iff.
  rewrite chunk_size_accepted. tauto.
Qed.

End ConstructionComplete.

Lemma constructor_succeeds_iff_witness :
  @Upload_constructor counting_checksum zero_chunk_args true
  = Ok zero_chunk_upload.
Proof.
  apply (@constructor_succeeds_iff counting_checksum zero_chunk_args true
           zero_chunk_upload).
  split; [now left|]. split; [exists "x"; split; [reflexivity|discriminate]|].
  split; [exists "http://h"; split; [reflexivity|discriminate]|].
  reflexivity.
Defined.

(** ** The outcome of a chunk upload, completely *)

Section UploadComplete.
Context {CU : ChecksumUtility}.













(** ** safePut *)

Lemma attempt_verdict_accept_rejected (o : Opts) (x : exchange) :
  attempt_verdict o (accept_rejected_response x) = attempt_verdict o x.
Proof. unfold attempt_verdict. simpl. now destruct (outcome x). Qed.

Lemma same_but_resolving_exchange (evs : list event) (s t : State) :
  same_but_resolving s t →
  same_but_resolving (after_exchange evs s) (after_exchange evs t).
Proof.
  intros (Hthis & Hcalls & Hsums & Htrace & Hproms & Hnet).
  unfold same_but_resolving. simpl. rewrite Htrace, Hcalls.
  repeat split; assumption.
Qed.

Lemma same_but_resolving_events (evs : list event) (s t : State) :
  same_but_resolving s t →
  same_but_resolving (add_events evs s) (add_events evs t).
Proof.
  intros (Hthis & Hcalls & Hsums & Htrace & Hproms & Hnet).
  unfold same_but_resolving. simpl. rewrite Htrace.
  repeat split; assumption.
Qed.

Lemma retry_from_same_but_resolving (f : frame) (hs : list (string * string))
    (d : Z) (left : nat) (num : Z) (s t : State) :
  same_but_resolving s t →
  fst (retry_from (uploadChunk_attempt f hs) left num d t)
  = fst (retry_from (uploadChunk_attempt f hs) left num d s)
  ∧ same_but_resolving
      (snd (retry_from (uploadChunk_attempt f hs) left num d s))
      (snd (retry_from (uploadChunk_attempt f hs) left num d t)).
Proof.
  revert num s t. induction left as [|left IH]; intros num s t Hst;
    pose proof Hst as (Hthis & Hcalls & Hsums & Htrace & Hproms & Hnet);
    simpl; rewrite !uploadChunk_attempt_run; rewrite Hnet, Hcalls;
    unfold resolving; rewrite !attempt_verdict_accept_rejected;
    cbn [progress accept_rejected_response];
    destruct (attempt_verdict _ _) as [b|e]; simpl;
    try (split; [reflexivity | now apply same_but_resolving_exchange]).
  unfold mbind, M_bind, bind, emit, update. simpl.
  apply IH.
  apply (same_but_resolving_events [EBackoff d]).
  now apply same_but_resolving_exchange.
Qed.

(** X6. safePut hands a response on whether the transport resolved with it
    or rejected with it.  So a chunk upload, and a probe of the resume
    index, end the same way and leave the same session, store and trace,
    with the same number of requests, under a transport that rejects with
    its responses as under one that resolves with them. *)
Theorem safePut_accepts_rejected_response (index : Z) (chunk : list byte)
    (u : Upload) (s : State) :
  let f := uploadChunk_locals index chunk u in
  let t := on_world (set_transport (resolving (transport (world s)))) s in
  fst (uploadChunk_body f t) = fst (uploadChunk_body f s)
  ∧ same_but_resolving (snd (uploadChunk_body f s)) (snd (uploadChunk_body f t))
  ∧ fst (getRemoteResumeIndex t) = fst (getRemoteResumeIndex s)
  ∧ same_but_resolving (snd (getRemoteResumeIndex s))
      (snd (getRemoteResumeIndex t)).
Proof.
  intros f t.
  assert (Hst : same_but_resolving s t) by (repeat split).
  split; [|split; [|split]].
  - rewrite !uploadChunk_body_eq. cbv zeta.
    destruct (retry_from_same_but_resolving f
                (chunk_headers (f_opts f) (f_start f) (f_end f))
                (backoffMillis (f_opts f))
                (Z.to_nat (backoffRetryLimit (f_opts f))) 1
                (folded f s) (folded f t)) as [Hr _]; [repeat split|].
    rewrite Hr. now destruct (fst (retry_from _ _ _ _ (folded f s))).
  - rewrite !uploadChunk_body_eq. cbv zeta.
    destruct (retry_from_same_but_resolving f
                (chunk_headers (f_opts f) (f_start f) (f_end f))
                (backoffMillis (f_opts f))
                (Z.to_nat (backoffRetryLimit (f_opts f))) 1
                (folded f s) (folded f t)) as [Hr Hs]; [repeat split|].
    destruct (retry_from _ _ _ _ (folded f s)) as [rs s2].
    destruct (retry_from _ _ _ _ (folded f t)) as [rt t2].
    simpl in Hr, Hs. subst rt.
    destruct Hs as (Hthis & Hcalls & Hsums & Htrace & Hproms & Hnet).
    destruct rs as [b|e]; unfold same_but_resolving; simpl;
      rewrite ?Htrace, ?Hsums; repeat split; assumption.
  - destruct (outcome (transport (world s) (calls (world s))
                         (probe_request (opts (this s))))) as [res|msg|res]
      eqn:Ho.
    + rewrite (getRemoteResumeIndex_result s res) by (left; exact Ho).
      rewrite (getRemoteResumeIndex_result t res); [reflexivity|].
      left. simpl. unfold resolving, accept_rejected_response. simpl.
      now rewrite Ho.
    + unfold getRemoteResumeIndex, safePut, put, mbind, M_bind, bind, emit,
        update, get, of_result, ret, throw. simpl.
      unfold resolving, accept_rejected_response. simpl.
      unfold probe_request in Ho. now rewrite Ho.
    + rewrite (getRemoteResumeIndex_result s res) by (right; exact Ho).
      rewrite (getRemoteResumeIndex_result t res); [reflexivity|].
      left. simpl. unfold resolving, accept_rejected_response. simpl.
      now rewrite Ho.
  - rewrite !getRemoteResumeIndex_state.
    now apply same_but_resolving_exchange.
Qed.

End UploadComplete.




(** ** The probe of the resume index, completely *)

Lemma match_here_groups (s g1 g2 : string) :
  match_here s = Some (g1, g2) →
  s = g1 +:+ "-" +:+ g2
  ∧ all_digits g1 = true ∧ g1 ≠ "" ∧ all_digits g2 = true ∧ g2 ≠ "".
Proof.
  unfold match_here. intros H.
  apply lazy_digits_sound in H as (d1 & rest & -> & N1 & H1 & H).
  rewrite string_app_nil_l in H.
  destruct rest as [|c rest]; [discriminate|].
  destruct (Ascii.eqb_spec c "-") as [->|Hne].
  - apply lazy_digits_sound in H as (d2 & rest' & -> & N2 & H2 & H).
    rewrite string_app_nil_l in H. destruct rest'; [|discriminate].
    injection H as <- <-. rewrite string_app_nil_r. auto.
  - destruct c as [[] [] [] [] [] [] [] []]; try discriminate. congruence.
Qed.

(** The pattern matches exactly the headers that end in
    [<digits>-<digits>]. *)
Lemma regex_match_iff (header : string) :
  (∃ range, regex_match header = Some range) ↔ well_formed_range header.
Proof.
  split.
  - intros [[g1 g2] H]. induction header as [|c header IH]; [discriminate|].
    simpl in H. destruct (match_here (String c header)) as [g|] eqn:E.
    + injection H as ->.
      apply match_here_groups in E as (E & H1 & N1 & H2 & N2).
      exists "", g1, g2. now rewrite string_app_nil_l.
    + destruct (IH H) as (pre & d1 & d2 & -> & Hd).
      exists (String c pre), d1, d2. now rewrite string_app_cons.
  - intros (pre & d1 & d2 & -> & H1 & N1 & H2 & N2).
    destruct (regex_match_range pre d1 d2 H1 N1 H2 N2) as [g1 Hg]. eauto.
Qed.

Section ProbeComplete.
Context {CU : ChecksumUtility}.

Lemma getRemoteResumeIndex_on_308 (s : State) (res : response) :
  let o := opts (this s) in
  settles_with (transport (world s) (calls (world s)) (probe_request o)) res →
  status res = 308 →
  fst (getRemoteResumeIndex s)
  = match headers res !! "range" with
    | None => Throw (TypeError "Cannot read properties of undefined")
    | Some header =>
        match regex_match header with
        | None => Throw (TypeError "Cannot read properties of null")
        | Some range => Ok (floor_div (parseInt (snd range) + 1) (chunkSize o))
        end
    end.
Proof.
  intros o Hsettle Hst.
  rewrite (getRemoteResumeIndex_result s res Hsettle).
  rewrite checkResponseStatus_allowed; [reflexivity|].
  rewrite Hst. apply list_elem_of_In. simpl. lia.
Qed.

(** X7. The probe of the resume index makes exactly one request, whatever
    comes back, and never retries; it changes neither the session object
    nor the checksum store nor any pending call; it is not held back by a
    pause; an Error of the transport reaches the caller as it is; and the
    probe never fails with UploadUnableToRecoverError. *)
Theorem getRemoteResumeIndex_probes_once (s : State) :
  let o := opts (this s) in
  let x := transport (world s) (calls (world s)) (probe_request o) in
  let s' := snd (getRemoteResumeIndex s) in
  calls (world s') = S (calls (world s))
  ∧ this s' = this s
  ∧ checksums (world s') = checksums (world s)
  ∧ promises (world s') = promises (world s)
  ∧ (∀ b, fst (getRemoteResumeIndex (on_this (set_paused b) s))
          = fst (getRemoteResumeIndex s))
  ∧ (∀ message, outcome x = RejectsWithError message →
                fst (getRemoteResumeIndex s) = Throw (TransportError message))
  ∧ fst (getRemoteResumeIndex s) ≠ Throw UploadUnableToRecoverError.
Proof.
  intros o x s'. subst s'. rewrite getRemoteResumeIndex_state.
  do 4 (split; [reflexivity|]). split; [|split].
  - intros b. destruct (outcome x) as [res|msg|res] eqn:Ho.
    + rewrite (getRemoteResumeIndex_result s res) by (left; exact Ho).
      now rewrite (getRemoteResumeIndex_result (on_this (set_paused b) s) res)
        by (left; exact Ho).
    + unfold getRemoteResumeIndex, safePut, put, mbind, M_bind, bind, emit,
        update, get, of_result, ret, throw. simpl.
      unfold x, probe_request, o in Ho. now rewrite Ho.
    + rewrite (getRemoteResumeIndex_result s res) by (right; exact Ho).
      now rewrite (getRemoteResumeIndex_result (on_this (set_paused b) s) res)
        by (right; exact Ho).
  - intros message Ho.
    unfold getRemoteResumeIndex, safePut, put, mbind, M_bind, bind, emit,
      update, get, of_result, ret, throw. simpl.
    unfold x, probe_request, o in Ho. now rewrite Ho.
  - destruct (outcome x) as [res|msg|res] eqn:Ho.
    + rewrite (getRemoteResumeIndex_result s res) by (left; exact Ho).
      unfold checkResponseStatus.
      repeat match goal with
             | |- context [if ?b then _ else _] => destruct b
             | |- context [match ?m with Some _ => _ | None => _ end] =>
                 destruct m
             end; discriminate.
    + unfold getRemoteResumeIndex, safePut, put, mbind, M_bind, bind, emit,
        update, get, of_result, ret, throw. simpl.
      unfold x, probe_request, o in Ho. rewrite Ho. discriminate.
    + rewrite (getRemoteResumeIndex_result s res) by (right; exact Ho).
      unfold checkResponseStatus.
      repeat match goal with
             | |- context [if ?b then _ else _] => destruct b
             | |- context [match ?m with Some _ => _ | None => _ end] =>
                 destruct m
             end; discriminate.
Qed.

(** X8. On a 308 answer the probe returns a number exactly when the answer
    has a Range header that ends in <digits>-<digits>; when the header is
    missing or has another form the probe fails with a TypeError, not with
    an error of the catalogue. *)
Theorem getRemoteResumeIndex_needs_range (s : State) (res : response) :
  let o := opts (this s) in
  let r := fst (getRemoteResumeIndex s) in
  settles_with (transport (world s) (calls (world s)) (probe_request o)) res →
  status res = 308 →
  ((∃ n, r = Ok n)
   ↔ ∃ header, headers res !! "range" = Some header ∧ well_formed_range header)
  ∧ (headers res !! "range" = None → ∃ message, r = Throw (TypeError message))
  ∧ (∀ header, headers res !! "range" = Some header →
               ¬ well_formed_range header →
               ∃ message, r = Throw (TypeError message)).
Proof.
  intros o r Hsettle Hst. subst r.
  rewrite (getRemoteResumeIndex_on_308 s res Hsettle Hst).
  destruct (headers res !! "range") as [header|].
  - pose proof (regex_match_iff header) as Hiff.
    destruct (regex_match header) as [range|].
    + assert (Hwf : well_formed_range header) by (apply Hiff; eauto).
      split; [|split].
      * split; [intros _; eauto | intros _; eauto].
      * discriminate.
      * intros h [= <-] Hn. contradiction.
    + split; [|split].
      * split; [intros [n Hn]; discriminate|].
        intros (h & [= <-] & Hwf). apply Hiff in Hwf as [range Hr].
        discriminate.
      * discriminate.
      * intros h _ _. eauto.
  - split; [|split].
    + split; [intros [n Hn]; discriminate | intros (h & Hh & _); discriminate].
    + intros _. eauto.
    + intros h Hh. discriminate.
Qed.

(** X9. The index that the probe returns never skips a byte the server
    lacks: with a positive chunk size and a Range header that ends in
    <start>-<end>, the index n is not negative, n whole chunks fit into the
    end + 1 bytes received, and the chunk a call of uploadChunk sends under
    that index starts at or before byte end + 1, less than one chunk
    size before it. *)
Theorem getRemoteResumeIndex_leaves_no_gap (s : State) (res : response)
    (pre : string) (start end_ : Z) :
  let o := opts (this s) in
  0 < chunkSize o →
  settles_with (transport (world s) (calls (world s)) (probe_request o)) res →
  status res = 308 →
  0 <= start → 0 <= end_ →
  headers res !! "range" = Some (pre +:+ pretty start +:+ "-" +:+ pretty end_) →
  ∃ n, fst (getRemoteResumeIndex s) = Ok (Num n)
       ∧ 0 <= n
       ∧ n * chunkSize o <= end_ + 1 < (n + 1) * chunkSize o
       ∧ ∀ chunk,
           let first := f_start (uploadChunk_locals n chunk (this s)) in
           first <= end_ + 1 < first + chunkSize o.
Proof.
  intros o Hsize Hsettle Hst Hstart Hend Hrange.
  rewrite (getRemoteResumeIndex_on_308 s res Hsettle Hst), Hrange.
  destruct (pretty_Z_decimal start Hstart) as (Hd1 & Hn1 & _).
  destruct (pretty_Z_decimal end_ Hend) as (Hd2 & Hn2 & Hparse).
  destruct (regex_match_range pre _ _ Hd1 Hn1 Hd2 Hn2) as [g1 ->].
  simpl snd. rewrite Hparse. unfold floor_div. fold o.
  destruct (Z.eqb_spec (chunkSize o) 0); [lia|].
  exists ((end_ + 1) / chunkSize o).
  pose proof (Z.div_mod (end_ + 1) (chunkSize o) ltac:(lia)) as Hdm.
  pose proof (Z.mod_pos_bound (end_ + 1) (chunkSize o) Hsize) as Hmod.
  split; [reflexivity|]. split; [apply Z.div_pos; lia|].
  split; [nia|]. intros chunk. simpl. fold o. nia.
Qed.

(** X10. With chunk size 0, which the constructor takes when small chunks
    are allowed, the probe of a well-formed 308 answer returns Infinity. *)
Theorem getRemoteResumeIndex_zero_chunk_size (s : State) (res : response)
    (header : string) :
  let o := opts (this s) in
  chunkSize o = 0 →
  settles_with (transport (world s) (calls (world s)) (probe_request o)) res →
  status res = 308 →
  headers res !! "range" = Some header →
  well_formed_range header →
  fst (getRemoteResumeIndex s) = Ok Infinity.
Proof.
  intros o Hsize Hsettle Hst Hrange Hwf.
  rewrite (getRemoteResumeIndex_on_308 s res Hsettle Hst), Hrange.
  apply regex_match_iff in Hwf as [range ->].
  unfold floor_div. fold o. now rewrite Hsize.
Qed.

End ProbeComplete.

Lemma getRemoteResumeIndex_needs_range_witness :
  ∃ message,
    fst (getRemoteResumeIndex (initial minimal_upload (resumable "bytes=0-") ∅))
    = Throw (TypeError message).
Proof.
  destruct (getRemoteResumeIndex_needs_range
              (initial minimal_upload (resumable "bytes=0-") ∅)
              (mkResponse 308 {["range" := "bytes=0-"]} ""))
    as (_ & _ & H).
  - left. reflexivity.
  - reflexivity.
  - apply (H "bytes=0-"); [reflexivity|].
    intros Hwf. apply regex_match_iff in Hwf as [range Hrange].
    vm_compute in Hrange. discriminate Hrange.
Defined.

Lemma getRemoteResumeIndex_leaves_no_gap_witness :
  ∃ n, fst (getRemoteResumeIndex
              (initial minimal_upload (resumable "bytes=0-300000") ∅))
       = Ok (Num n)
       ∧ 0 <= n
       ∧ n * 262144 <= 300000 + 1 < (n + 1) * 262144
       ∧ ∀ chunk,
           let first :=
             f_start (uploadChunk_locals n chunk minimal_upload) in
           first <= 300000 + 1 < first + 262144.
Proof.
  apply (getRemoteResumeIndex_leaves_no_gap
           (initial minimal_upload (resumable "bytes=0-300000") ∅)
           (mkResponse 308 {["range" := "bytes=0-300000"]} "")
           "bytes=" 0 300000).
  - reflexivity.
  - left. reflexivity.
  - reflexivity.
  - lia.
  - lia.
  - reflexivity.
Defined.

Lemma getRemoteResumeIndex_zero_chunk_size_witness :
  fst (getRemoteResumeIndex
         (initial zero_chunk_upload (resumable "bytes=0-5") ∅))
  = Ok Infinity.
Proof.
  apply (getRemoteResumeIndex_zero_chunk_size
           (initial zero_chunk_upload (resumable "bytes=0-5") ∅)
           (mkResponse 308 {["range" := "bytes=0-5"]} "") "bytes=0-5").
  - reflexivity.
  - left. reflexivity.
  - reflexivity.
  - reflexivity.
  - apply regex_match_iff. eexists. vm_compute. reflexivity.
Defined.

(** ** The session over its whole life *)

Section LifeOfSession.
Context {CU : ChecksumUtility}.

Lemma run_app (l1 l2 : list action) (s : State) :
  run (l1 ++ l2) s = run l2 (run l1 s).
Proof. apply fold_left_app. Qed.

Lemma exec_paused (a : action) (s : State) :
  paused (this (exec a s))
  = match a with
    | APause => true
    | AUnpause => false
    | _ => paused (this s)
    end.
Proof.
  destruct a as [| | |index chunk| |q]; cbn [exec]; try reflexivity.
  - rewrite unpause_eq. reflexivity.
  - unfold uploadChunk. destruct (paused (this s)) eqn:Hp; [exact Hp|].
    destruct (uploadChunk_body_frame
                (uploadChunk_locals index chunk (this s)) s)
      as (_ & _ & Hpaused & _).
    destruct (uploadChunk_body _ s) as [r s1]. simpl in *. congruence.
  - rewrite getRemoteResumeIndex_state. reflexivity.
  - unfold resume.
    destruct (promises (world s) !! q) as [[f|f|r]|]; try reflexivity.
    destruct (uploadChunk_body_frame f s) as (_ & _ & Hpaused & _).
    destruct (uploadChunk_body f s) as [r s1]. exact Hpaused.
Qed.

(** X14. Only pause and unpause touch the paused flag: after any sequence
    of interface calls and continuations the session is paused exactly
    when the last call of pause or unpause in the sequence was a pause, or,
    when there was none, when it was paused before. *)
Theorem paused_follows_last_toggle (l : list action) (s : State) :
  paused (this (run l s)) = paused_after (paused (this s)) l.
Proof.
  revert s. induction l as [|a l IH]; intros s; [reflexivity|].
  simpl. rewrite IH, exec_paused. unfold paused_after. simpl.
  now destruct a.
Qed.

Lemma exec_no_waiter_unless_paused (a : action) (s : State) :
  no_waiter_unless_paused s → no_waiter_unless_paused (exec a s).
Proof.
  unfold no_waiter_unless_paused. intros H.
  destruct a as [| | |index chunk| |q]; cbn [exec].
  - discriminate.
  - rewrite unpause_eq. reflexivity.
  - exact H.
  - unfold uploadChunk. destruct (paused (this s)) eqn:Hp.
    + simpl. rewrite Hp. discriminate.
    + destruct (uploadChunk_body_frame
                  (uploadChunk_locals index chunk (this s)) s)
        as (_ & Hhs & Hpaused & _).
      destruct (uploadChunk_body _ s) as [r s1]. simpl in *.
      intros _. rewrite Hhs. now apply H.
  - rewrite getRemoteResumeIndex_state. exact H.
  - unfold resume.
    destruct (promises (world s) !! q) as [[f|f|r]|]; try exact H.
    destruct (uploadChunk_body_frame f s) as (_ & Hhs & Hpaused & _).
    destruct (uploadChunk_body f s) as [r s1]. simpl in *.
    rewrite Hhs, Hpaused. exact H.
Qed.

Lemma run_no_waiter_unless_paused (l : list action) (s : State) :
  no_waiter_unless_paused s → no_waiter_unless_paused (run l s).
Proof.
  revert s. induction l as [|a l IH]; intros s H; [exact H|].
  simpl. apply IH. now apply exec_no_waiter_unless_paused.
Qed.

(** X15. In no state that a session can reach does a call wait while the
    session is not paused: when the paused flag is off the waiter list is
    empty and no promise is held back. *)
Theorem no_call_waits_unless_paused (args : Args) (allowSmallChunks : bool)
    (u : Upload) (net : nat → request → exchange)
    (store : gmap (option string) (gmap Z string)) (history : list action) :
  Upload_constructor args allowSmallChunks = Ok u →
  let s := run history (initial u net store) in
  paused (this s) = false →
  unpauseHandlers (this s) = []
  ∧ ∀ p f, promises (world s) !! p ≠ Some (Gated f).
Proof.
  intros Hu s Hp. apply constructor_ok in Hu.
  assert (Hinv : no_waiter_unless_paused s).
  { apply run_no_waiter_unless_paused. intros _. now subst u. }
  assert (Hok : gate_ok s).
  { apply run_gate_ok, initial_gate_ok. now subst u. }
  split; [now apply Hinv|].
  intros p f Hpf. destruct Hok as [_ Hiff].
  assert (Hin : p ∈ unpauseHandlers (this s)) by (apply Hiff; eauto).
  rewrite (Hinv Hp) in Hin. inversion Hin.
Qed.

(** X13. No sequence of interface calls and continuations changes the
    configuration of a session: its options stay the constructor's
    arguments over the defaults, so the chunk size never changes, and the
    checksums stay filed under the id it was given. *)
Theorem configuration_never_changes (args : Args) (allowSmallChunks : bool)
    (u : Upload) (net : nat → request → exchange)
    (store : gmap (option string) (gmap Z string)) (history : list action) :
  Upload_constructor args allowSmallChunks = Ok u →
  let s := run history (initial u net store) in
  opts (this s) = spread args
  ∧ chunkSize (opts (this s)) = default MIN_CHUNK_SIZE (arg_chunkSize args)
  ∧ meta (this s)
    = mkFileMeta (arg_id args) 0 (chunkSize (spread args))
        (storage (spread args)).
Proof.
  intros Hu s. apply constructor_ok in Hu.
  destruct (run_config history (initial u net store)) as [Ho Hm].
  fold s in Ho, Hm. rewrite Ho, Hm. subst u. repeat split.
Qed.

(** X12. The accumulator is fed in the order of the calls, whatever their
    indices and whatever their outcome: after a sequence of calls of
    uploadChunk on a session that is not paused, it is the accumulator
    before with the chunks folded in one after the other. *)
Theorem accumulator_folds_in_call_order (cs : list (Z * list byte))
    (s : State) :
  paused (this s) = false →
  let s' := run (upload_calls cs) s in
  spark (this s') = fold_chunks cs (spark (this s))
  ∧ paused (this s') = false.
Proof.
  revert s. induction cs as [|[index chunk] cs IH]; intros s Hp;
    [now split|].
  cbv zeta. simpl.
  pose proof (uploadChunk_unpaused_this index chunk s Hp) as Hthis.
  destruct (IH (snd (uploadChunk index chunk s))) as [Hs Hp'].
  { rewrite Hthis. exact Hp. }
  split; [|exact Hp']. rewrite Hs, Hthis. reflexivity.
Qed.

Lemma uploadChunk_paused (index : Z) (chunk : list byte) (s : State) :
  paused (this s) = true →
  snd (uploadChunk index chunk s)
  = on_world (λ w, set_promises
                     (promises w
                        ++ [Gated (uploadChunk_locals index chunk (this s))]) w)
      (on_this (waitForUnpause (length (promises (world s)))) s).
Proof. intros Hp. unfold uploadChunk. now rewrite Hp. Qed.

Lemma upload_calls_no_unpause (cs : list (Z * list byte)) :
  AUnpause ∉ upload_calls cs.
Proof.
  intros Hin. apply list_elem_of_In, in_map_iff in Hin as (x & Hx & _).
  discriminate Hx.
Qed.

Lemma paused_calls_queue (cs : list (Z * list byte)) (s : State) :
  paused (this s) = true →
  let s1 := run (upload_calls cs) s in
  let first := length (promises (world s)) in
  unpauseHandlers (this s1)
    = (unpauseHandlers (this s) ++ seq first (length cs))%list
  ∧ trace (world s1) = trace (world s)
  ∧ calls (world s1) = calls (world s)
  ∧ spark (this s1) = spark (this s)
  ∧ checksums (world s1) = checksums (world s)
  ∧ (∀ i ic, cs !! i = Some ic →
       promises (world s1) !! (first + i)%nat
       = Some (Gated (uploadChunk_locals (fst ic) (snd ic) (this s)))).
Proof.
  revert s. induction cs as [|[index chunk] cs IH]; intros s Hp; cbv zeta.
  - simpl. rewrite app_nil_r. repeat split. intros i ic H. discriminate.
  - simpl run. rewrite (uploadChunk_paused index chunk s Hp).
    match goal with
    | |- context [run (upload_calls cs) ?st] =>
        destruct (IH st) as (Hhs & Htr & Hcalls & Hsp & Hsums & Hps);
        [exact Hp|];
        pose proof (run_promise_stable (upload_calls cs) st
                      (length (promises (world s)))
                      (Gated (uploadChunk_locals index chunk (this s))))
          as Hstable
    end.
    simpl in Hhs, Htr, Hcalls, Hsp, Hsums, Hps, Hstable.
    rewrite length_app in Hhs, Hps. simpl in Hhs, Hps.
    rewrite Hhs, Htr, Hcalls, Hsp, Hsums.
    split; [rewrite <- app_assoc; simpl; now rewrite Nat.add_1_r|].
    do 4 (split; [reflexivity|]).
    intros [|i] ic Hlook.
    + injection Hlook as <-. rewrite Nat.add_0_r. apply Hstable.
      * apply list_lookup_middle. reflexivity.
      * intros _. apply upload_calls_no_unpause.
      * intros [f Hf]. discriminate.
    + simpl in Hlook. specialize (Hps i ic Hlook).
      replace (length (promises (world s)) + S i)%nat
        with (length (promises (world s)) + 1 + i)%nat by lia.
      exact Hps.
Qed.

(** X11. Calls of uploadChunk made while the session is paused queue up in
    the order they are made: each gets the next promise and its resolver
    goes to the end of the waiter list, nothing is sent, folded or
    persisted meanwhile, and the unpause that follows calls the resolvers
    in that same order, those that waited before first. *)
Theorem paused_calls_released_in_order (cs : list (Z * list byte))
    (s : State) :
  paused (this s) = true →
  let s1 := run (upload_calls cs) s in
  let first := length (promises (world s)) in
  let queue := (unpauseHandlers (this s) ++ seq first (length cs))%list in
  unpauseHandlers (this s1) = queue
  ∧ trace (world s1) = trace (world s)
  ∧ calls (world s1) = calls (world s)
  ∧ spark (this s1) = spark (this s)
  ∧ checksums (world s1) = checksums (world s)
  ∧ (∀ i ic, cs !! i = Some ic →
       promises (world s1) !! (first + i)%nat
       = Some (Gated (uploadChunk_locals (fst ic) (snd ic) (this s))))
  ∧ trace (world (unpause s1)) = (trace (world s) ++ map EResolve queue)%list.
Proof.
  intros Hp s1 first queue.
  destruct (paused_calls_queue cs s Hp) as (Hhs & Htr & Hcalls & Hsp & Hsums & Hps).
  fold s1 first in Hhs, Htr, Hcalls, Hsp, Hsums, Hps.
  do 6 (split; [assumption|]).
  rewrite unpause_eq. simpl. rewrite Htr, Hhs. reflexivity.
Qed.

End LifeOfSession.

Lemma no_call_waits_unless_paused_witness :
  unpauseHandlers
    (this (run [APause; AUploadChunk 0 []; AUnpause] (fresh_state 200)))
  = [].
Proof.
  apply (no_call_waits_unless_paused minimal_args false minimal_upload
           (always_status 200) ∅ [APause; AUploadChunk 0 []; AUnpause]).
  - reflexivity.
  - reflexivity.
Defined.

Lemma configuration_never_changes_witness :
  chunkSize
    (opts (this (run [APause; AUploadChunk 0 []; ACancel] (fresh_state 200))))
  = 262144.
Proof.
  apply (configuration_never_changes minimal_args false minimal_upload
           (always_status 200) ∅ [APause; AUploadChunk 0 []; ACancel]).
  reflexivity.
Defined.

Lemma accumulator_folds_in_call_order_witness :
  spark (this (run (upload_calls [(0, ["a"%byte]); (5, ["b"%byte])])
                 (fresh_state 500)))
  = (["a"%byte; "b"%byte] : list byte).
Proof.
  apply (accumulator_folds_in_call_order
           [(0, ["a"%byte]); (5, ["b"%byte])] (fresh_state 500)).
  reflexivity.
Defined.

Lemma paused_calls_released_in_order_witness :
  unpauseHandlers
    (this (run (upload_calls [(0, ["a"%byte]); (1, ["b"%byte])])
             (pause (fresh_state 200))))
  = [0%nat; 1%nat].
Proof.
  apply (paused_calls_released_in_order
           [(0, ["a"%byte]); (1, ["b"%byte])] (pause (fresh_state 200))).
  reflexivity.
Defined.

Lemma getRemoteResumeIndex_probes_once_witness :
  fst (getRemoteResumeIndex
         (initial minimal_upload (always_throws "Network Error") ∅))
  = Throw (TransportError "Network Error").
Proof.
  destruct (getRemoteResumeIndex_probes_once
              (initial minimal_upload (always_throws "Network Error") ∅))
    as (_ & _ & _ & _ & _ & H & _).
  apply H. reflexivity.
Defined.
